(** * Customer-service chatbot: session engine and knowledge-base builder

    A shallow embedding of [chatbot.py] (class [CustomerServiceBot]) and of
    [build_knowledge_base.py] (class [KnowledgeBaseBuilder]).

    The language-model, retrieval and document-parsing libraries are outside
    the repository.  Their calls are modelled by their outcome: what a call
    returns, or that it raises, is an input of the step that makes the call. *)

From Stdlib Require Import Ascii String.
From Stdlib Require Import Sorted.
From stdpp Require Import base option list gmap strings.

Local Open Scope string_scope.
Local Open Scope list_scope.

(** A path, as [pathlib] keeps it: the sequence of its components. *)
Definition Path := list string.

(** ** config.py: the settings the engine and the builder read *)

Record Settings := {
  vector_store_path : Path;
  knowledge_base_path : Path;
  company_name : string;
  support_email : string;
  business_hours : string
}.

Definition default_settings : Settings := {|
  vector_store_path := ["data"; "vectorstore"];
  knowledge_base_path := ["data"; "knowledge_base"];
  company_name := "Your Company";
  support_email := "support@yourcompany.com";
  business_hours := "Monday-Friday, 9 AM - 5 PM EST"
|}.

(** ** Documents, as the loaders and the retriever return them *)

Record Document := {
  page_content : string;
  metadata : list (string * string)
}.

(** ** chatbot.py *)

Module Chatbot.

(** The messages a conversation buffer holds.  The engine tells
    [HumanMessage] and [AIMessage] apart with [isinstance]; any other message
    class falls through both tests. *)
Inductive Message :=
  | HumanMessage (content : string)
  | AIMessage (content : string)
  | SystemMessage (content : string).

(** A handle on the persisted vector index, with the entries of its
    collection. *)
Record Chroma := { collection : list Document }.

(** Truth value of [self.vector_store] in [if self.vector_store:].  [None]
    is false; a [Chroma] handle defines [__len__] as the number of entries
    of its collection, so it is false exactly when the collection is
    empty. *)
Definition truthy (vs : option Chroma) : bool :=
  match vs with
  | None => false
  | Some h => negb (Nat.eqb (List.length (collection h)) 0)
  end.

(** A chain object keeps a reference to the memory object it was built
    with.  Memory objects live in [self.memories] and are never replaced
    there, so the reference is the key of the memory. *)
Inductive Chain :=
  | ConversationalRetrievalChain (retriever : Chroma) (memory : string)
  | ConversationChain (memory : string).

Definition chain_memory (c : Chain) : string :=
  match c with
  | ConversationalRetrievalChain _ m => m
  | ConversationChain m => m
  end.

Record Bot := {
  settings : Settings;
  vector_store : option Chroma;
  conversation_chains : gmap string Chain;
  memories : gmap string (list Message)
}.

Definition with_memories (b : Bot) (ms : gmap string (list Message)) : Bot :=
  {| settings := settings b; vector_store := vector_store b;
     conversation_chains := conversation_chains b; memories := ms |}.

Definition with_chains (b : Bot) (cs : gmap string Chain) : Bot :=
  {| settings := settings b; vector_store := vector_store b;
     conversation_chains := cs; memories := memories b |}.

(** [CustomerServiceBot.__init__]: no chain, no memory; the vector store is
    what [_load_vector_store] returned ([None] when loading raised). *)
Definition init (s : Settings) (vs : option Chroma) : Bot :=
  {| settings := s; vector_store := vs;
     conversation_chains := ∅; memories := ∅ |}.

(** What the outside world answers during one turn: whether building a
    chain object returns, and what the retrieval step and the generation
    step of a chain call return ([None]: the chain call raises at that
    step). *)
Record Env := {
  construct_ok : bool;
  retrieval : option (list Document);
  generation : option string
}.

(** Calls that leave the process during a turn. *)
Inductive Call :=
  | CallRetriever (query : string)
  | CallLLM (question : string).

Definition _get_or_create_memory (b : Bot) (session_id : string) : Bot :=
  match memories b !! session_id with
  | Some _ => b
  | None => with_memories b (<[session_id := []]> (memories b))
  end.

(** [None] in the second component: the chain constructor raised.  The
    memory is created before the constructor runs. *)
Definition _get_or_create_chain (b : Bot) (e : Env) (session_id : string)
  : Bot * option Chain :=
  match conversation_chains b !! session_id with
  | Some chain => (b, Some chain)
  | None =>
      let b1 := _get_or_create_memory b session_id in
      if construct_ok e then
        let chain :=
          match vector_store b1 with
          | Some h =>
              if truthy (vector_store b1)
              then ConversationalRetrievalChain h session_id
              else ConversationChain session_id
          | None => ConversationChain session_id
          end in
        (with_chains b1 (<[session_id := chain]> (conversation_chains b1)),
         Some chain)
      else (b1, None)
  end.

(** [memory.save_context]: a completed exchange is appended to the buffer
    as the human message followed by the reply. *)
Definition save_context (ms : gmap string (list Message)) (m : string)
    (input output : string) : gmap string (list Message) :=
  alter (λ buf, buf ++ [HumanMessage input; AIMessage output]) m ms.

(** [chain({...question...})].  A retrieval chain queries the retriever
    and the model (its calls are kept as one retrieval followed by one
    generation) and saves the exchange once both returned; when either
    raises, nothing is saved.  A plain conversation chain has no
    [question] input and rejects the call. *)
Definition call_chain (c : Chain) (e : Env) (ms : gmap string (list Message))
    (question : string)
  : option (string * list Document) * gmap string (list Message) * list Call :=
  match c with
  | ConversationalRetrievalChain _ m =>
      match retrieval e with
      | None => (None, ms, [CallRetriever question])
      | Some docs =>
          match generation e with
          | None => (None, ms, [CallRetriever question; CallLLM question])
          | Some answer =>
              (Some (answer, docs), save_context ms m question answer,
               [CallRetriever question; CallLLM question])
          end
      end
  | ConversationChain _ => (None, ms, [])
  end.

(** [chain.predict(input=message)]: the model is called and the exchange
    saved once it returned.  Only the plain conversation chain has the
    method. *)
Definition predict (c : Chain) (e : Env) (ms : gmap string (list Message))
    (input : string)
  : option string * gmap string (list Message) * list Call :=
  match c with
  | ConversationChain m =>
      match generation e with
      | None => (None, ms, [CallLLM input])
      | Some answer =>
          (Some answer, save_context ms m input answer, [CallLLM input])
      end
  | ConversationalRetrievalChain _ _ => (None, ms, [])
  end.

Record SourceInfo := { content : string; src_metadata : list (string * string) }.

Definition source_info_of (sources : list Document) : option (list SourceInfo) :=
  match sources with
  | [] => None
  | _ => Some (map (λ doc, {| content := page_content doc;
                              src_metadata := metadata doc |}) sources)
  end.

Definition _get_error_response (b : Bot) : string :=
  "I apologize, but I'm experiencing technical difficulties. " +:+
  "Please try again in a moment, or contact our support team at " +:+
  support_email (settings b) +:+ " for immediate assistance.".

(** What one call of [chat] gives back: the returned pair, the bot
    afterwards and the outside calls it made. *)
Record ChatResult := {
  response : string;
  sources : option (list SourceInfo);
  bot_after : Bot;
  calls : list Call
}.

(** The body of the [try] in [chat]; [None] in the first component stands
    for a raised exception. *)
Definition chat_try (b : Bot) (e : Env) (message session_id : string)
  : option (string * option (list SourceInfo)) * Bot * list Call :=
  match _get_or_create_chain b e session_id with
  | (b1, None) => (None, b1, [])
  | (b1, Some chain) =>
      if truthy (vector_store b1) then
        match call_chain chain e (memories b1) message with
        | (Some (answer, docs), ms, tr) =>
            (Some (answer, source_info_of docs), with_memories b1 ms, tr)
        | (None, ms, tr) => (None, with_memories b1 ms, tr)
        end
      else
        match predict chain e (memories b1) message with
        | (Some answer, ms, tr) => (Some (answer, None), with_memories b1 ms, tr)
        | (None, ms, tr) => (None, with_memories b1 ms, tr)
        end
  end.

Definition chat (b : Bot) (e : Env) (message session_id : string) : ChatResult :=
  match chat_try b e message session_id with
  | (Some (r, s), b', tr) =>
      {| response := r; sources := s; bot_after := b'; calls := tr |}
  | (None, b', tr) =>
      {| response := _get_error_response b'; sources := None;
         bot_after := b'; calls := tr |}
  end.

Inductive Role := user | assistant.

Definition get_conversation_history (b : Bot) (session_id : string)
  : list (Role * string) :=
  match memories b !! session_id with
  | None => []
  | Some messages =>
      flat_map (λ msg,
        match msg with
        | HumanMessage c => [(user, c)]
        | AIMessage c => [(assistant, c)]
        | SystemMessage _ => []
        end) messages
  end.

(** [memory.clear()] empties the buffer of the memory object, which stays
    registered; the chain entry is deleted.  Neither raises, so the
    [except] branch is never taken and the result is [True]. *)
Definition clear_conversation (b : Bot) (session_id : string) : bool * Bot :=
  let b1 :=
    match memories b !! session_id with
    | Some _ => with_memories b (<[session_id := []]> (memories b))
    | None => b
    end in
  let b2 :=
    match conversation_chains b1 !! session_id with
    | Some _ => with_chains b1 (delete session_id (conversation_chains b1))
    | None => b1
    end in
  (true, b2).

(** The turn ends in the [except] branch of [chat]. *)
Definition failed (b : Bot) (e : Env) (message session_id : string) : Prop :=
  (chat_try b e message session_id).1.1 = None.

(** *** Runs of the engine *)

Inductive Op :=
  | Chat (e : Env) (message session_id : string)
  | Clear (session_id : string).

Definition step (b : Bot) (op : Op) : Bot :=
  match op with
  | Chat e message session_id => bot_after (chat b e message session_id)
  | Clear session_id => (clear_conversation b session_id).2
  end.

Definition run (b : Bot) (ops : list Op) : Bot := fold_left step ops b.

(** The turns that the calls [ops], made one after the other from [b],
    add to the transcript of [session_id] when it starts as [acc]: a call
    of [chat] for the session that returns an answer adds the message and
    the answer, one that ends in the [except] branch adds nothing, and
    clearing the session empties the transcript. *)
Fixpoint turns (b : Bot) (ops : list Op) (session_id : string)
    (acc : list (Role * string)) : list (Role * string) :=
  match ops with
  | [] => acc
  | op :: rest =>
      turns (step b op) rest session_id
        match op with
        | Chat e message sid =>
            if bool_decide (sid = session_id) then
              match (chat_try b e message sid).1.1 with
              | Some (answer, _) => acc ++ [(user, message); (assistant, answer)]
              | None => acc
              end
            else acc
        | Clear sid => if bool_decide (sid = session_id) then [] else acc
        end
  end.

(** An outside world in which a turn completes with the answer [a]. *)
Definition answering (a : string) : Env :=
  {| construct_ok := true; retrieval := Some []; generation := Some a |}.

(** Completed exchanges of one session, as (message, answer) pairs: the
    calls that make them, and the turns they append. *)
Definition exchanges (session_id : string) (xs : list (string * string))
  : list Op :=
  map (λ x, Chat (answering x.2) x.1 session_id) xs.

Definition transcript_of (xs : list (string * string)) : list (Role * string) :=
  flat_map (λ x, [(user, x.1); (assistant, x.2)]) xs.

Definition is_retrieval (c : Chain) : bool :=
  match c with
  | ConversationalRetrievalChain _ _ => true
  | ConversationChain _ => false
  end.

(** Every cached chain was built for its session: it refers to the
    memory registered under the same id, and it is a retrieval chain
    exactly when the vector store counts as present. *)
Definition consistent (b : Bot) : Prop :=
  ∀ sid c, conversation_chains b !! sid = Some c →
    chain_memory c = sid ∧ is_Some (memories b !! sid) ∧
    is_retrieval c = truthy (vector_store b).



(** *** Sessions over a run *)

(** The session ids that the calls of [chat] in [ops] were made for. *)
Definition chat_ids (ops : list Op) : gset string :=
  list_to_set
    (omap (λ op, match op with
                 | Chat _ _ sid => Some sid
                 | Clear _ => None
                 end) ops).

Inductive LogRecord :=
  | ErrorInitializeLLM
  | ErrorInitializeEmbeddings
  | WarnCouldNotLoadVectorStore
  | InfoVectorStoreLoaded
  | WarnVectorStoreNotLoaded
  | WarnHighSessions (current_sessions : nat).

(** [cleanup_old_sessions] changes nothing in the bot; what it does is
    what it logs. *)
Definition cleanup_old_sessions (b : Bot) (max_age_hours : nat)
  : list LogRecord :=
  let current_sessions := size (memories b) in
  if (100 <? current_sessions)%nat
  then [WarnHighSessions current_sessions]
  else [].

(** *** Construction *)

Inductive LLM :=
  | ChatOpenAI
  | ChatAnthropic.

(** What the outside world answers while a bot is constructed: whether
    the client constructors return, and what opening the persisted index
    gives ([None]: opening raises). *)
Record Startup := {
  openai_ok : bool;
  anthropic_ok : bool;
  embeddings_ok : bool;
  chroma : option Chroma
}.

(** [None] in the first component: the exception is logged and raised
    again. *)
Definition _initialize_llm (llm_provider : string) (w : Startup)
  : option LLM * list LogRecord :=
  if bool_decide (llm_provider = "openai") then
    if openai_ok w then (Some ChatOpenAI, []) else (None, [ErrorInitializeLLM])
  else if bool_decide (llm_provider = "anthropic") then
    if anthropic_ok w then (Some ChatAnthropic, [])
    else (None, [ErrorInitializeLLM])
  else (None, [ErrorInitializeLLM]).

Definition _initialize_embeddings (w : Startup) : option unit * list LogRecord :=
  if embeddings_ok w then (Some (), []) else (None, [ErrorInitializeEmbeddings]).

(** [_load_vector_store] catches what opening the index raises and
    returns [None] instead. *)
Definition _load_vector_store (w : Startup) : option Chroma * list LogRecord :=
  match chroma w with
  | Some h => (Some h, [])
  | None => (None, [WarnCouldNotLoadVectorStore])
  end.

(** [CustomerServiceBot()]: [None] in the first component when
    [__init__] raises.  The [try] around [_load_vector_store] has an
    [except] branch that logs [WarnVectorStoreNotLoaded]; it is entered
    only if [_load_vector_store] raises. *)
Definition new_bot (s : Settings) (llm_provider : string) (w : Startup)
  : option Bot * list LogRecord :=
  match _initialize_llm llm_provider w with
  | (None, lg) => (None, lg)
  | (Some _, lg) =>
      match _initialize_embeddings w with
      | (None, lg') => (None, lg ++ lg')
      | (Some _, lg') =>
          let '(vs, lg'') := _load_vector_store w in
          (Some (init s vs), lg ++ lg' ++ lg'' ++ [InfoVectorStoreLoaded])
      end
  end.

(** [get_bot], on the global [_bot_instance]: the bot returned ([None]
    when constructing it raised), the global afterwards and the log. *)
Definition get_bot (_bot_instance : option Bot) (s : Settings)
    (llm_provider : string) (w : Startup)
  : option Bot * option Bot * list LogRecord :=
  match _bot_instance with
  | Some b => (Some b, Some b, [])
  | None =>
      match new_bot s llm_provider w with
      | (Some b, lg) => (Some b, Some b, lg)
      | (None, lg) => (None, None, lg)
      end
  end.

End Chatbot.

(** ** build_knowledge_base.py *)

Module KnowledgeBase.

(** *** Strings and paths *)

Definition lower_ascii (c : ascii) : ascii :=
  let n := nat_of_ascii c in
  if ((65 <=? n) && (n <=? 90))%nat then ascii_of_nat (n + 32) else c.

(** [str.lower] on the ASCII letters; other bytes are left as they are. *)
Fixpoint lower (s : string) : string :=
  match s with
  | EmptyString => EmptyString
  | String c s' => String (lower_ascii c) (lower s')
  end.

Definition is_space (c : ascii) : bool :=
  let n := nat_of_ascii c in
  (((9 <=? n) && (n <=? 13)) || ((28 <=? n) && (n <=? 32)))%nat.

Fixpoint lstrip (s : string) : string :=
  match s with
  | EmptyString => EmptyString
  | String c s' => if is_space c then lstrip s' else s
  end.

Fixpoint rstrip (s : string) : string :=
  match s with
  | EmptyString => EmptyString
  | String c s' =>
      match rstrip s' with
      | EmptyString => if is_space c then EmptyString else String c EmptyString
      | r => String c r
      end
  end.

(** [str.strip()] for ASCII white space. *)
Definition strip (s : string) : string := rstrip (lstrip s).

(** [str.rfind] of one character. *)
Fixpoint rfind (c : ascii) (s : string) : option nat :=
  match s with
  | EmptyString => None
  | String a s' =>
      match rfind c s' with
      | Some i => Some (S i)
      | None => if bool_decide (a = c) then Some 0 else None
      end
  end.

(** [PurePath.suffix]: the part of the name from its last dot, when that dot
    is neither the first nor the last character. *)
Definition suffix (name : string) : string :=
  match rfind "."%char name with
  | Some i =>
      if ((0 <? i) && (i <? String.length name - 1))%nat
      then substring i (String.length name - i) name
      else ""
  | None => ""
  end.

(** [PurePath.name]: the last component. *)
Definition name (p : Path) : string := List.last p "".

(** [str(path)] *)
Definition str (p : Path) : string := String.concat "/" p.

(** [d] is a proper ancestor of [p]. *)
Fixpoint is_below (d p : Path) : bool :=
  match d, p with
  | [], _ :: _ => true
  | x :: d', y :: p' => bool_decide (x = y) && is_below d' p'
  | _, _ => false
  end.

(** *** The file system

    The entries are listed in the order in which a directory walk meets
    them.  Failures of the operating system itself (permissions, a full
    disk, a file where a directory is expected) and the files the index
    keeps for itself are outside the model. *)

Inductive Node :=
  | Directory
  | File (data : string).

Definition FileSystem := list (Path * Node).

Definition is_path (p : Path) (e : Path * Node) : bool := bool_decide (e.1 = p).

(** [Path.exists]; the empty path is the current directory, which is
    always there. *)
Definition path_exists (fs : FileSystem) (p : Path) : bool :=
  bool_decide (p = []) || existsb (is_path p) fs.

(** [Path.rglob('*')] *)
Definition rglob (fs : FileSystem) (d : Path) : FileSystem :=
  List.filter (λ e, is_below d e.1) fs.

Fixpoint mkdirs (fs : FileSystem) (above rest : Path) : FileSystem :=
  match rest with
  | [] => fs
  | x :: rest' =>
      let d := above ++ [x] in
      mkdirs (if path_exists fs d then fs else fs ++ [(d, Directory)]) d rest'
  end.

(** [Path.mkdir(parents=True, exist_ok=True)] *)
Definition mkdir (fs : FileSystem) (p : Path) : FileSystem := mkdirs fs [] p.

(** [Path.write_text]: an existing file is overwritten where it is, a new
    one is added to the listing. *)
Definition write_text (fs : FileSystem) (p : Path) (data : string) : FileSystem :=
  if path_exists fs p
  then map (λ e, if is_path p e then (p, File data) else e) fs
  else fs ++ [(p, File data)].

(** The path [p] is listed and every entry for it is a file with the
    contents [data]. *)
Definition holds (fs : FileSystem) (p : Path) (data : string) : Prop :=
  p ∈ map fst fs ∧ ∀ n, (p, n) ∈ fs → n = File data.

(** *** Loading *)

Inductive LoaderClass :=
  | TextLoader
  | PyPDFLoader
  | CSVLoader
  | UnstructuredMarkdownLoader.

(** The [loaders] dictionary of [load_documents]; [None]: the extension is
    not a key. *)
Definition loaders (extension : string) : option LoaderClass :=
  if bool_decide (extension = ".txt") then Some TextLoader
  else if bool_decide (extension = ".pdf") then Some PyPDFLoader
  else if bool_decide (extension = ".csv") then Some CSVLoader
  else if bool_decide (extension = ".md") then Some UnstructuredMarkdownLoader
  else None.

(** [metadata[key] = value] on a dictionary kept in insertion order. *)
Fixpoint dict_set (md : list (string * string)) (key value : string)
  : list (string * string) :=
  match md with
  | [] => [(key, value)]
  | (k, v) :: md' =>
      if bool_decide (k = key) then (k, value) :: md'
      else (k, v) :: dict_set md' key value
  end.

Inductive LogRecord :=
  | WarnNoDirectory (directory : Path)
  | InfoLoading (file_path : Path)
  | InfoLoaded (count : nat) (file_name : string)
  | ErrorLoading (file_path : Path)
  | InfoLoadingFrom (docs_dir : Path)
  | WarnNoDocuments
  | InfoCreatedSample (filename : string)
  | InfoLoadedTotal (count : nat)
  | InfoSplitting
  | InfoCreatedChunks (count : nat)
  | InfoCreatingStore
  | InfoStoreCreated (out_dir : Path).

(** The keys of the [loaders] dictionary. *)
Definition supported_extensions : list string := [".txt"; ".pdf"; ".csv"; ".md"].

(** The test [extension in loaders] of [load_documents] on a path. *)
Definition supported (p : Path) : Prop :=
  lower (suffix (name p)) ∈ supported_extensions.

Record TextSplitter := { chunk_size : nat; chunk_overlap : nat }.

Record Builder := {
  settings : Settings;
  text_splitter : TextSplitter
}.

(** [KnowledgeBaseBuilder.__init__] *)
Definition init (s : Settings) : Builder :=
  {| settings := s;
     text_splitter := {| chunk_size := 1000; chunk_overlap := 200 |} |}.

Section Libraries.

(** A loader of the document library, run on the file at a path with the
    given contents: the documents it returns, or [None] when constructing
    the loader or loading raises. *)
Variable load : LoaderClass → string → string → option (list Document).

(** The text splitter of the library, for a chunk size and an overlap
    measured with [len]. *)
Variable split_text : nat → nat → string → list string.

Definition add_metadata (file_path : Path) (extension : string) (doc : Document)
  : Document :=
  {| page_content := page_content doc;
     metadata :=
       dict_set (dict_set (metadata doc) "source" (str file_path))
                "file_type" extension |}.

(** One round of the loop of [load_documents] on a file. *)
Definition load_file (file_path : Path) (data : string)
  : list Document * list LogRecord :=
  let extension := lower (suffix (name file_path)) in
  match loaders extension with
  | Some loader_class =>
      match load loader_class (str file_path) data with
      | Some docs =>
          (map (add_metadata file_path extension) docs,
           [InfoLoading file_path;
            InfoLoaded (List.length docs) (name file_path)])
      | None => ([], [InfoLoading file_path; ErrorLoading file_path])
      end
  | None => ([], [])
  end.

Fixpoint load_entries (entries : FileSystem) : list Document * list LogRecord :=
  match entries with
  | [] => ([], [])
  | (file_path, Directory) :: rest => load_entries rest
  | (file_path, File data) :: rest =>
      let '(docs, lg) := load_file file_path data in
      let '(documents, lg') := load_entries rest in
      (docs ++ documents, lg ++ lg')
  end.

Definition load_documents (fs : FileSystem) (directory : Path)
  : list Document * list LogRecord :=
  if negb (path_exists fs directory)
  then ([], [WarnNoDirectory directory])
  else load_entries (rglob fs directory).

(** [text_splitter.split_documents]: every document is cut by the
    splitter and every chunk keeps the metadata of its document. *)
Definition split_documents (ts : TextSplitter) (documents : list Document)
  : list Document :=
  flat_map (λ doc,
    map (λ chunk, {| page_content := chunk; metadata := metadata doc |})
        (split_text (chunk_size ts) (chunk_overlap ts) (page_content doc)))
    documents.

Definition sample_content : list (string * string) :=
  [
    ("company_info.txt",
"
Company Name: Your Company
Founded: 2020
Mission: To provide excellent customer service and innovative solutions.
            
Business Hours: Monday-Friday, 9 AM - 5 PM EST
Support Email: support@yourcompany.com
Phone: 1-800-555-0123
            
We are committed to helping our customers succeed.
");
    ("shipping_policy.txt",
"
Shipping Policy
            
Standard Shipping: 5-7 business days
Express Shipping: 2-3 business days
Overnight Shipping: Next business day
            
Free shipping on orders over $50.
            
We ship to all 50 states and internationally to select countries.
Tracking information is provided once your order ships.
");
    ("return_policy.txt",
"
Return Policy
            
We offer a 30-day return policy on most items.
            
To be eligible for a return:
- Item must be unused and in original packaging
- Must have receipt or proof of purchase
- Return must be initiated within 30 days of purchase
            
Refunds are processed within 5-7 business days.
            
Some items are non-returnable:
- Perishable goods
- Custom or personalized items
- Digital products
");
    ("faq.txt",
"
Frequently Asked Questions
            
Q: How do I track my order?
A: You can track your order using the tracking number sent to your email.
            
Q: What payment methods do you accept?
A: We accept Visa, MasterCard, American Express, PayPal, and Apple Pay.
            
Q: Do you offer international shipping?
A: Yes, we ship to select countries. Additional fees may apply.
            
Q: How do I change or cancel my order?
A: Contact customer support within 24 hours of placing your order.
            
Q: What is your warranty policy?
A: Most products come with a 1-year manufacturer warranty.
")
  ].

(** What the text loader returns for a file it can read: one document
    with the text of the file, labelled with the path it was given. *)
Definition text_document (file_path data : string) : Document :=
  {| page_content := data; metadata := [("source", file_path)] |}.

(** The document that [load_documents] makes of the sample file
    [filename] in [directory]. *)
Definition sample_document (directory : Path) (filename content : string)
  : Document :=
  {| page_content := strip content;
     metadata := [("source", str (directory ++ [filename]));
                  ("file_type", ".txt")] |}.

Fixpoint write_samples (fs : FileSystem) (directory : Path)
    (items : list (string * string)) : FileSystem * list LogRecord :=
  match items with
  | [] => (fs, [])
  | (filename, content) :: rest =>
      let fs1 := write_text fs (directory ++ [filename]) (strip content) in
      let '(fs2, lg) := write_samples fs1 directory rest in
      (fs2, InfoCreatedSample filename :: lg)
  end.

Definition _create_sample_documents (fs : FileSystem) (directory : Path)
  : FileSystem * list LogRecord :=
  write_samples fs directory sample_content.

(** What a call of [build_vector_store] leaves: the file system, the log,
    the chunks handed to [Chroma.from_documents] and the store returned
    ([None] when creating the store raised). *)
Record Build := {
  fs_after : FileSystem;
  log : list LogRecord;
  splits : list Document;
  vectorstore : option (list Document)
}.

(** [index_ok]: whether [Chroma.from_documents] returns. *)
Definition build_vector_store (b : Builder) (index_ok : bool)
    (fs : FileSystem) (documents_dir output_dir : option Path) : Build :=
  let docs_dir := from_option id (knowledge_base_path (settings b)) documents_dir in
  let out_dir := from_option id (vector_store_path (settings b)) output_dir in
  let fs1 := mkdir (mkdir fs docs_dir) out_dir in
  let '(documents, lg1) := load_documents fs1 docs_dir in
  let '(fs2, documents, lg2) :=
    match documents with
    | [] =>
        let '(fs2, lgs) := _create_sample_documents fs1 docs_dir in
        let '(documents, lg2) := load_documents fs2 docs_dir in
        (fs2, documents, WarnNoDocuments :: lgs ++ lg2)
    | _ => (fs1, documents, [])
    end in
  let chunks := split_documents (text_splitter b) documents in
  let lg :=
    InfoLoadingFrom docs_dir :: lg1 ++ lg2 ++
    [InfoLoadedTotal (List.length documents); InfoSplitting;
     InfoCreatedChunks (List.length chunks); InfoCreatingStore] in
  if index_ok
  then {| fs_after := fs2; log := lg ++ [InfoStoreCreated out_dir];
          splits := chunks; vectorstore := Some chunks |}
  else {| fs_after := fs2; log := lg; splits := chunks; vectorstore := None |}.

End Libraries.

(** *** Stand-ins for the libraries, to run the builder on examples *)

(** A document library in which only the text loader works. *)
Definition text_only_load (cls : LoaderClass) (file_path data : string)
  : option (list Document) :=
  match cls with
  | TextLoader => Some [text_document file_path data]
  | _ => None
  end.

(** A splitter that leaves every text in one piece. *)
Definition unsplit (size overlap : nat) (text : string) : list string := [text].

(** [metadata.get(key)] on a dictionary kept in insertion order. *)
Fixpoint dict_get (md : list (string * string)) (key : string) : option string :=
  match md with
  | [] => None
  | (k, v) :: md' => if bool_decide (k = key) then Some v else dict_get md' key
  end.

Section Updating.

Variable load : LoaderClass → string → string → option (list Document).
Variable split_text : nat → nat → string → list string.




End Updating.

End KnowledgeBase.

(** ** main.py *)

Module Api.

(** The settings [main.py] reads. *)
Record ApiSettings := {
  rate_limit_enabled : bool;
  max_requests_per_minute : Z;
  require_api_key : bool;
  valid_api_keys : list string
}.

(** What a handler or a dependency gives: a value, or a raised
    [HTTPException]. *)
Inductive Http (A : Type) :=
  | Return (a : A)
  | HTTPException (status_code : nat) (detail : string).

Arguments Return {A} a.
Arguments HTTPException {A} status_code detail.

(** A [datetime] is kept as its count of microseconds.  [timedelta.seconds]
    of a difference: a [timedelta] is normalised to days, seconds within
    the day and microseconds within the second, all but the days
    non-negative. *)
Definition seconds (delta : Z) : Z := ((delta `div` 1000000) `mod` 86400)%Z.

Definition in_window (now ts : Z) : bool := (seconds (now - ts) <? 60)%Z.

(** [check_rate_limit], for a request whose client address is
    [client_ip], at the time [now] that [datetime.utcnow()] returns. *)
Definition check_rate_limit (cfg : ApiSettings)
    (request_counts : gmap string (list Z)) (client_ip : string) (now : Z)
  : Http unit * gmap string (list Z) :=
  if negb (rate_limit_enabled cfg) then (Return (), request_counts)
  else
    let counts1 :=
      match request_counts !! client_ip with
      | Some _ => request_counts
      | None => <[client_ip := []]> request_counts
      end in
    let window :=
      List.filter (in_window now) (default [] (counts1 !! client_ip)) in
    let counts2 := <[client_ip := window]> counts1 in
    if (Z.of_nat (List.length window) >=? max_requests_per_minute cfg)%Z
    then (HTTPException 429 "Rate limit exceeded. Please try again later.",
          counts2)
    else (Return (), <[client_ip := window ++ [now]]> counts2).

(** [verify_api_key], on the value of the [X-API-Key] header. *)
Definition verify_api_key (cfg : ApiSettings) (x_api_key : option string)
  : Http bool :=
  if negb (require_api_key cfg) then Return true
  else
    match x_api_key with
    | Some key =>
        if bool_decide (key = "") || negb (bool_decide (key ∈ valid_api_keys cfg))
        then HTTPException 401 "Invalid or missing API key"
        else Return true
    | None => HTTPException 401 "Invalid or missing API key"
    end.

(** The state the handlers share: the global bot, constructed when the
    application starts, and [request_counts]. *)
Record Server := {
  bot : Chatbot.Bot;
  request_counts : gmap string (list Z)
}.

Record ChatRequest := {
  message : string;
  session_id : option string;
  user_id : option string
}.

Record ChatResponse := {
  response : string;
  response_session_id : string;
  sources : option (list Chatbot.SourceInfo)
}.

Record ConversationHistory := {
  history_session_id : string;
  messages : list (Chatbot.Role * string);
  message_count : nat
}.

(** [request.session_id or str(uuid.uuid4())] *)
Definition session_id_or (request : ChatRequest) (uuid4 : string) : string :=
  match session_id request with
  | Some sid => if bool_decide (sid = "") then uuid4 else sid
  | None => uuid4
  end.

(** [POST /chat], for a request that passed the validation of its model.
    The dependencies run in the order of the signature: the rate limit,
    then the key.  [bot.chat] raises nothing, so the [except] branch of
    the handler is not entered. *)
Definition chat (cfg : ApiSettings) (srv : Server) (client_ip : string)
    (now : Z) (x_api_key : option string) (e : Chatbot.Env) (uuid4 : string)
    (request : ChatRequest) : Http ChatResponse * Server :=
  match check_rate_limit cfg (request_counts srv) client_ip now with
  | (HTTPException code detail, counts) =>
      (HTTPException code detail, {| bot := bot srv; request_counts := counts |})
  | (Return _, counts) =>
      match verify_api_key cfg x_api_key with
      | HTTPException code detail =>
          (HTTPException code detail,
           {| bot := bot srv; request_counts := counts |})
      | Return _ =>
          let sid := session_id_or request uuid4 in
          let t := Chatbot.chat (bot srv) e (message request) sid in
          (Return {| response := Chatbot.response t;
                     response_session_id := sid;
                     sources := Chatbot.sources t |},
           {| bot := Chatbot.bot_after t; request_counts := counts |})
      end
  end.

(** [GET /conversation/{session_id}] *)
Definition get_conversation (cfg : ApiSettings) (srv : Server)
    (x_api_key : option string) (sid : string) : Http ConversationHistory :=
  match verify_api_key cfg x_api_key with
  | HTTPException code detail => HTTPException code detail
  | Return _ =>
      let history := Chatbot.get_conversation_history (bot srv) sid in
      Return {| history_session_id := sid; messages := history;
                message_count := List.length history |}
  end.

(** [DELETE /conversation/{session_id}]; the value returned is the
    message and the session id. *)
Definition clear_conversation (cfg : ApiSettings) (srv : Server)
    (x_api_key : option string) (sid : string)
  : Http (string * string) * Server :=
  match verify_api_key cfg x_api_key with
  | HTTPException code detail => (HTTPException code detail, srv)
  | Return _ =>
      let '(success, b) := Chatbot.clear_conversation (bot srv) sid in
      let srv' := {| bot := b; request_counts := request_counts srv |} in
      if success
      then (Return ("Conversation cleared successfully", sid), srv')
      else (HTTPException 404 "Session not found", srv')
  end.

(** Requests of one client, at the given times, through the rate limit:
    which are let through, and the counts afterwards. *)
Fixpoint check_all (cfg : ApiSettings) (counts : gmap string (list Z))
    (client_ip : string) (times : list Z) : list bool * gmap string (list Z) :=
  match times with
  | [] => ([], counts)
  | now :: rest =>
      let '(r, counts1) := check_rate_limit cfg counts client_ip now in
      let '(rs, counts2) := check_all cfg counts1 client_ip rest in
      ((if r is Return _ then true else false) :: rs, counts2)
  end.

(** Requests of any clients, each with its address and its time, through
    the rate limit: the counts afterwards. *)
Definition check_each (cfg : ApiSettings) (counts : gmap string (list Z))
    (requests : list (string * Z)) : gmap string (list Z) :=
  fold_left (λ c r, (check_rate_limit cfg c r.1 r.2).2) requests counts.

End Api.

(** * Properties of the session engine *)

Module ChatbotProofs.
Import Chatbot.

Lemma get_or_create_memory_lookup b sid sid' :
  memories (_get_or_create_memory b sid) !! sid' =
  if bool_decide (sid = sid') then Some (default [] (memories b !! sid))
  else memories b !! sid'.
Proof.
  unfold _get_or_create_memory.
  destruct (memories b !! sid) as [buf|] eqn:E; simpl.
  - case_bool_decide; subst; auto.
  - case_bool_decide; subst.
    + apply lookup_insert_eq.
    + by apply lookup_insert_ne.
Qed.

Lemma history_with_chains b cs sid :
  get_conversation_history (with_chains b cs) sid = get_conversation_history b sid.
Proof. reflexivity. Qed.

Lemma history_get_or_create_memory b sid sid' :
  get_conversation_history (_get_or_create_memory b sid) sid' =
  get_conversation_history b sid'.
Proof.
  unfold get_conversation_history.
  rewrite get_or_create_memory_lookup.
  case_bool_decide; subst; [|done].
  by destruct (memories b !! sid').
Qed.

Lemma get_or_create_chain_history b e sid sid' :
  get_conversation_history (_get_or_create_chain b e sid).1 sid' =
  get_conversation_history b sid'.
Proof.
  unfold _get_or_create_chain.
  destruct (conversation_chains b !! sid); [done|].
  destruct (construct_ok e); simpl;
    [rewrite history_with_chains|]; apply history_get_or_create_memory.
Qed.

Lemma get_or_create_chain_fixed b e sid :
  Chatbot.settings (_get_or_create_chain b e sid).1 = Chatbot.settings b ∧
  vector_store (_get_or_create_chain b e sid).1 = vector_store b.
Proof.
  unfold _get_or_create_chain, _get_or_create_memory.
  repeat (case_match; simpl); done.
Qed.

Lemma construct_ok_chain b e sid :
  construct_ok e = true → is_Some (_get_or_create_chain b e sid).2.
Proof.
  intros H. unfold _get_or_create_chain. rewrite H.
  destruct (conversation_chains b !! sid); simpl; eauto.
Qed.

Lemma chat_try_fixed b e m sid :
  Chatbot.settings (chat_try b e m sid).1.2 = Chatbot.settings b ∧
  vector_store (chat_try b e m sid).1.2 = vector_store b.
Proof.
  unfold chat_try.
  pose proof (get_or_create_chain_fixed b e sid) as H.
  destruct (_get_or_create_chain b e sid) as [b1 [c|]]; simpl in *; [|done].
  unfold call_chain, predict. repeat (case_match; simplify_eq/=); done.
Qed.

Lemma chat_try_failed_memories b e m sid :
  (chat_try b e m sid).1.1 = None →
  memories (chat_try b e m sid).1.2 = memories (_get_or_create_chain b e sid).1.
Proof.
  unfold chat_try.
  destruct (_get_or_create_chain b e sid) as [b1 [c|]]; simpl; [|done].
  unfold call_chain, predict. repeat (case_match; simplify_eq/=); done.
Qed.

Lemma bot_after_chat b e m sid :
  bot_after (chat b e m sid) = (chat_try b e m sid).1.2.
Proof.
  unfold chat. destruct (chat_try b e m sid) as [[[[r s]|] b'] tr]; done.
Qed.

Lemma generation_failure_fails b e m sid :
  generation e = None → failed b e m sid.
Proof.
  intros Hg. unfold failed, chat_try.
  destruct (_get_or_create_chain b e sid) as [b1 [c|]]; simpl; [|done].
  unfold call_chain, predict. rewrite Hg.
  repeat (case_match; simplify_eq/=); done.
Qed.

Lemma chat_failure_fallback_aux b e message session_id :
  failed b e message session_id →
  response (chat b e message session_id) = _get_error_response b ∧
  sources (chat b e message session_id) = None.
Proof.
  intros Hf. unfold chat. unfold failed in Hf.
  pose proof (chat_try_fixed b e message session_id) as [Hs _].
  destruct (chat_try b e message session_id) as [[[[r s]|] b'] tr];
    simpl in *; [done|].
  unfold _get_error_response. by rewrite Hs.
Qed.

(** C2: when a step of a turn raises (for instance the generation call),
    [chat] returns the fixed fallback message, which contains the
    configured support e-mail address, together with no sources, and the
    transcript of every session reads the same before and after the
    turn.  [chat] is a total function: nothing is raised to the caller. *)
Theorem chat_failure_returns_fallback b e message session_id :
  generation e = None ∨ failed b e message session_id →
  let t := chat b e message session_id in
  response t = _get_error_response b ∧
  (∃ pre post,
     response t = pre +:+ support_email (Chatbot.settings b) +:+ post) ∧
  sources t = None ∧
  ∀ sid, get_conversation_history (bot_after t) sid =
         get_conversation_history b sid.
Proof.
  intros H.
  assert (Hf : failed b e message session_id).
  { destruct H as [H|H]; [by apply generation_failure_fails|done]. }
  clear H. intros t.
  destruct (chat_failure_fallback_aux b e message session_id Hf) as [Hr Hs].
  repeat split; [done| |done|].
  - subst t. rewrite Hr. unfold _get_error_response.
    by exists ("I apologize, but I'm experiencing technical difficulties. " +:+
            "Please try again in a moment, or contact our support team at "),
           " for immediate assistance.".
  - intros sid. subst t. rewrite bot_after_chat.
    unfold get_conversation_history at 1.
    rewrite (chat_try_failed_memories _ _ _ _ Hf).
    apply (get_or_create_chain_history b e session_id sid).
Qed.

Lemma chat_failure_returns_fallback_witness :
  let b := init default_settings None in
  let e := {| construct_ok := true; retrieval := None; generation := None |} in
  let t := chat b e "Where is my order?" "session-1" in
  generation e = None ∧
  response t = _get_error_response b ∧
  (∃ pre post,
     response t = pre +:+ support_email (Chatbot.settings b) +:+ post) ∧
  sources t = None ∧
  ∀ sid, get_conversation_history (bot_after t) sid =
         get_conversation_history b sid.
Proof.
  intros b e. split; [reflexivity|].
  apply (chat_failure_returns_fallback b e "Where is my order?" "session-1").
  left. reflexivity.
Defined.

(** *** The cached chains stay consistent *)

Lemma consistent_init s vs : consistent (init s vs).
Proof. intros sid c H. simpl in H. by rewrite lookup_empty in H. Qed.

Lemma consistent_with_memories b ms :
  consistent b →
  (∀ sid, is_Some (memories b !! sid) → is_Some (ms !! sid)) →
  consistent (with_memories b ms).
Proof.
  intros Hc Hm sid c H. destruct (Hc sid c H) as (? & ? & ?).
  repeat split; simpl; auto.
Qed.

Lemma save_context_lookup ms m input output sid :
  save_context ms m input output !! sid =
  if bool_decide (m = sid)
  then (λ buf, buf ++ [HumanMessage input; AIMessage output]) <$> ms !! sid
  else ms !! sid.
Proof.
  unfold save_context. rewrite lookup_alter.
  case_decide; case_bool_decide; subst; done.
Qed.

Lemma save_context_is_Some ms m input output sid :
  is_Some (ms !! sid) → is_Some (save_context ms m input output !! sid).
Proof.
  intros [buf H]. rewrite save_context_lookup, H.
  case_bool_decide; simpl; eauto.
Qed.

Lemma get_or_create_chain_spec b e sid :
  consistent b →
  consistent (_get_or_create_chain b e sid).1 ∧
  ∀ c, (_get_or_create_chain b e sid).2 = Some c →
    chain_memory c = sid ∧
    is_Some (memories (_get_or_create_chain b e sid).1 !! sid) ∧
    is_retrieval c = truthy (vector_store b) ∧
    conversation_chains (_get_or_create_chain b e sid).1 !! sid = Some c.
Proof.
  intros Hc. unfold _get_or_create_chain.
  destruct (conversation_chains b !! sid) as [c0|] eqn:E; simpl.
  { split; [done|]. intros c [= <-]. destruct (Hc sid c0 E) as (? & ? & ?). done. }
  assert (Hm : is_Some (memories (_get_or_create_memory b sid) !! sid)).
  { rewrite get_or_create_memory_lookup. rewrite bool_decide_eq_true_2; eauto. }
  assert (Hc1 : consistent (_get_or_create_memory b sid)).
  { unfold _get_or_create_memory. destruct (memories b !! sid) eqn:E'; [done|].
    apply consistent_with_memories; [done|].
    intros sid' H. destruct (decide (sid = sid')) as [->|Hne].
    - rewrite lookup_insert_eq. eauto.
    - by rewrite lookup_insert_ne. }
  assert (Hv : vector_store (_get_or_create_memory b sid) = vector_store b).
  { unfold _get_or_create_memory. by destruct (memories b !! sid). }
  assert (Hk : conversation_chains (_get_or_create_memory b sid) =
               conversation_chains b).
  { unfold _get_or_create_memory. by destruct (memories b !! sid). }
  destruct (construct_ok e); simpl; [|done].
  set (chain := match vector_store (_get_or_create_memory b sid) with
                | Some h => _ | None => _ end).
  assert (Hchain : chain_memory chain = sid ∧
                   is_retrieval chain = truthy (vector_store b)).
  { subst chain. rewrite Hv.
    destruct (vector_store b) as [h|] eqn:Ev; [|done].
    destruct (truthy (Some h)); done. }
  destruct Hchain as [Hcm Hir]. split.
  - intros sid' c H. simpl in H.
    destruct (decide (sid = sid')) as [<-|Hne].
    + rewrite lookup_insert_eq in H. injection H as <-. simpl.
      by rewrite Hv.
    + rewrite lookup_insert_ne in H by done.
      destruct (Hc1 sid' c H) as (? & ? & ?). done.
  - intros c [= <-]. simpl. rewrite lookup_insert_eq. done.
Qed.

Lemma chat_try_consistent b e m sid :
  consistent b → consistent (chat_try b e m sid).1.2.
Proof.
  intros Hc. unfold chat_try.
  destruct (get_or_create_chain_spec b e sid Hc) as [Hc1 _].
  destruct (_get_or_create_chain b e sid) as [b1 [c|]]; simpl in *; [|done].
  unfold call_chain, predict.
  repeat (case_match; simplify_eq/=);
    try (by destruct b1);
    apply consistent_with_memories; auto using save_context_is_Some.
Qed.

Lemma clear_consistent b sid :
  consistent b → consistent (clear_conversation b sid).2.
Proof.
  intros Hc. unfold clear_conversation. simpl.
  set (b1 := match memories b !! sid with Some _ => _ | None => b end).
  assert (Hc1 : consistent b1).
  { subst b1. destruct (memories b !! sid) eqn:E; [|done].
    apply consistent_with_memories; [done|].
    intros sid' H. destruct (decide (sid = sid')) as [->|Hne].
    - rewrite lookup_insert_eq. eauto.
    - by rewrite lookup_insert_ne. }
  destruct (conversation_chains b1 !! sid) as [c0|] eqn:E; [|done].
  intros sid' c H. simpl in H.
  destruct (decide (sid = sid')) as [->|Hne].
  - by rewrite lookup_delete_eq in H.
  - rewrite lookup_delete_ne in H by done. apply (Hc1 sid' c H).
Qed.

Lemma step_consistent b op : consistent b → consistent (step b op).
Proof.
  destruct op as [e m sid|sid]; simpl; intros Hc.
  - rewrite bot_after_chat. by apply chat_try_consistent.
  - by apply clear_consistent.
Qed.

Lemma run_consistent ops : ∀ b, consistent b → consistent (run b ops).
Proof.
  induction ops as [|op ops IH]; intros b Hc; [done|].
  apply IH, step_consistent, Hc.
Qed.

(** *** What a turn does to the transcripts *)

Lemma history_save_context b sid input output sid' :
  is_Some (memories b !! sid) →
  get_conversation_history
    (with_memories b (save_context (memories b) sid input output)) sid' =
  if bool_decide (sid = sid')
  then get_conversation_history b sid' ++ [(user, input); (assistant, output)]
  else get_conversation_history b sid'.
Proof.
  intros [buf Hb]. unfold get_conversation_history. simpl.
  rewrite save_context_lookup.
  case_bool_decide; subst; [|done].
  rewrite Hb. simpl. by rewrite flat_map_app.
Qed.

Lemma chat_try_success_memories b e m sid answer src :
  consistent b →
  (chat_try b e m sid).1.1 = Some (answer, src) →
  (chat_try b e m sid).1.2 =
  with_memories (_get_or_create_chain b e sid).1
    (save_context (memories (_get_or_create_chain b e sid).1) sid m answer).
Proof.
  intros Hc. unfold chat_try.
  destruct (get_or_create_chain_spec b e sid Hc) as [_ Hs].
  destruct (_get_or_create_chain b e sid) as [b1 [c|]]; simpl in *; [|done].
  destruct (Hs c eq_refl) as (Hm & _ & _).
  unfold call_chain, predict.
  repeat (case_match; simplify_eq/=); try done; by intros [= <- <-].
Qed.

Lemma chat_history b e m sid sid' :
  consistent b →
  get_conversation_history (bot_after (chat b e m sid)) sid' =
  match (chat_try b e m sid).1.1 with
  | Some (answer, _) =>
      if bool_decide (sid = sid')
      then get_conversation_history b sid' ++ [(user, m); (assistant, answer)]
      else get_conversation_history b sid'
  | None => get_conversation_history b sid'
  end.
Proof.
  intros Hc. rewrite bot_after_chat.
  destruct ((chat_try b e m sid).1.1) as [[answer src]|] eqn:E.
  - rewrite (chat_try_success_memories _ _ _ _ _ _ Hc E).
    destruct (get_or_create_chain_spec b e sid Hc) as [_ Hs].
    assert (Hm : is_Some (memories (_get_or_create_chain b e sid).1 !! sid)).
    { destruct ((_get_or_create_chain b e sid).2) as [c|] eqn:Ec.
      - by destruct (Hs c eq_refl) as (_ & ? & _).
      - unfold chat_try in E.
        destruct (_get_or_create_chain b e sid) as [b1 [c|]]; simplify_eq/=. }
    rewrite (history_save_context _ _ _ _ _ Hm).
    by rewrite get_or_create_chain_history.
  - unfold get_conversation_history at 1.
    rewrite (chat_try_failed_memories _ _ _ _ E).
    apply (get_or_create_chain_history b e sid sid').
Qed.

Lemma clear_history b sid sid' :
  get_conversation_history (clear_conversation b sid).2 sid' =
  if bool_decide (sid = sid') then [] else get_conversation_history b sid'.
Proof.
  unfold clear_conversation, get_conversation_history. simpl.
  destruct (memories b !! sid) as [buf|] eqn:E.
  - destruct (conversation_chains _ !! sid); simpl;
      (case_bool_decide; subst;
       [by rewrite lookup_insert_eq | by rewrite lookup_insert_ne]).
  - destruct (conversation_chains _ !! sid); simpl;
      (case_bool_decide; subst; [by rewrite E | done]).
Qed.

Lemma run_turns ops : ∀ b sid acc,
  consistent b →
  get_conversation_history b sid = acc →
  get_conversation_history (run b ops) sid = turns b ops sid acc.
Proof.
  induction ops as [|op ops IH]; intros b sid acc Hc Ha; [done|].
  change (run b (op :: ops)) with (run (step b op) ops). cbn [turns].
  apply IH; [by apply step_consistent|].
  destruct op as [e m s|s]; cbn [step].
  - rewrite (chat_history _ _ _ _ _ Hc), Ha.
    destruct ((chat_try b e m s).1.1) as [[answer src]|];
      case_bool_decide; done.
  - rewrite clear_history, Ha. done.
Qed.

Lemma chat_try_answering b a m sid :
  consistent b → (chat_try b (answering a) m sid).1.1 = Some (a, None).
Proof.
  intros Hc. unfold chat_try.
  destruct (get_or_create_chain_spec b (answering a) sid Hc) as [_ Hs].
  destruct (get_or_create_chain_fixed b (answering a) sid) as [_ Hv].
  destruct (construct_ok_chain b (answering a) sid eq_refl) as [c Hcn].
  destruct (_get_or_create_chain b (answering a) sid) as [b1 c'].
  simpl in *. subst c'. destruct (Hs c eq_refl) as (_ & _ & Hk & _).
  rewrite Hv. destruct c as [h mem|mem]; simpl in *; by rewrite <- Hk.
Qed.

Lemma run_exchanges xs : ∀ b sid,
  consistent b →
  get_conversation_history (run b (exchanges sid xs)) sid =
  get_conversation_history b sid ++ transcript_of xs.
Proof.
  induction xs as [|[m a] xs IH]; intros b sid Hc.
  - simpl. by rewrite app_nil_r.
  - change (run b (exchanges sid ((m, a) :: xs)))
      with (run (step b (Chat (answering a) m sid)) (exchanges sid xs)).
    rewrite IH by apply (step_consistent _ _ Hc).
    cbn [step]. rewrite (chat_history _ _ _ _ _ Hc).
    rewrite (chat_try_answering _ _ _ _ Hc).
    rewrite bool_decide_eq_true_2 by done.
    by rewrite <- app_assoc.
Qed.

(** C4: the history of a session is the sequence of the turns appended to
    it, entry for entry.  After any calls made on a new bot, the history of
    a session lists, in call order and with their roles, the message and
    the answer of every completed exchange of that session since it was
    last cleared, and nothing else.  And N further completed exchanges add
    their 2 N turns at the end, in order, user before assistant. *)
Theorem history_is_appended_turns s vs ops session_id :
  let b := run (init s vs) ops in
  get_conversation_history b session_id = turns (init s vs) ops session_id [] ∧
  ∀ xs,
    get_conversation_history (run b (exchanges session_id xs)) session_id =
      get_conversation_history b session_id ++ transcript_of xs ∧
    List.length
      (get_conversation_history (run b (exchanges session_id xs)) session_id) =
      List.length (get_conversation_history b session_id) + 2 * List.length xs.
Proof.
  intros b. split.
  - apply run_turns; [apply consistent_init|done].
  - intros xs.
    assert (H : get_conversation_history
                  (run b (exchanges session_id xs)) session_id =
                get_conversation_history b session_id ++ transcript_of xs).
    { apply run_exchanges, run_consistent, consistent_init. }
    split; [done|]. rewrite H, length_app. f_equal.
    clear. induction xs as [|x xs IH]; [done|]. simpl. rewrite IH. lia.
Qed.

(** C8: once [clear_conversation] has run for a session, whatever turns the
    session had, its history is the empty list. *)
Theorem history_empty_after_clear b session_id :
  get_conversation_history (clear_conversation b session_id).2 session_id = [].
Proof. rewrite clear_history. by rewrite bool_decide_eq_true_2. Qed.

(** C1: [clear_conversation] answers [True] for a session id that no call
    has ever mentioned, and leaves the bot as it was; it also answers
    [True] for a session that a failed turn registered without any entry
    in its transcript. *)
Theorem clear_unknown_session_returns_true :
  clear_conversation (init default_settings None) "no-such-session" =
    (true, init default_settings None) ∧
  let ko := {| construct_ok := true; retrieval := None; generation := None |} in
  let b := bot_after (chat (init default_settings None) ko "Hello" "s1") in
  get_conversation_history b "s1" = [] ∧
  (clear_conversation b "s1").1 = true.
Proof. repeat split. Qed.

Lemma clear_conversation_returns_true b session_id :
  (clear_conversation b session_id).1 = true.
Proof. reflexivity. Qed.

Lemma step_fixed b op :
  Chatbot.settings (step b op) = Chatbot.settings b ∧
  vector_store (step b op) = vector_store b.
Proof.
  destruct op as [e m sid|sid]; simpl.
  - rewrite bot_after_chat. apply chat_try_fixed.
  - unfold clear_conversation. simpl. repeat case_match; done.
Qed.

Lemma run_fixed ops : ∀ b,
  Chatbot.settings (run b ops) = Chatbot.settings b ∧
  vector_store (run b ops) = vector_store b.
Proof.
  induction ops as [|op ops IH]; intros b; [done|].
  change (run b (op :: ops)) with (run (step b op) ops).
  destruct (IH (step b op)) as [-> ->]. apply step_fixed.
Qed.








(** A run with a completed turn, a failed turn, a turn of another
    session, a clearing and a new turn. *)
Example history_example :
  let ok a := {| construct_ok := true; retrieval := None;
                 generation := Some a |} in
  let ko := {| construct_ok := true; retrieval := None;
               generation := None |} in
  let b := init default_settings None in
  get_conversation_history
    (run b [Chat (ok "Hi!") "Hello" "s1"; Chat ko "Are you there?" "s1";
            Chat (ok "Yes.") "Do you ship abroad?" "s2";
            Chat (ok "9 to 5.") "Hours?" "s1"]) "s1" =
    [(user, "Hello"); (assistant, "Hi!");
     (user, "Hours?"); (assistant, "9 to 5.")] ∧
  get_conversation_history
    (run b [Chat (ok "Hi!") "Hello" "s1"; Clear "s1";
            Chat (ok "9 to 5.") "Hours?" "s1"]) "s1" =
    [(user, "Hours?"); (assistant, "9 to 5.")].
Proof. split; reflexivity. Qed.

(** C9: a turn for a session id the bot has not seen, whose chain is built
    and whose generation call then raises, leaves a memory and a chain
    registered under that id; the history of the session is the empty
    list and the caller gets the fallback message. *)
Theorem failed_turn_registers_session b e message session_id :
  memories b !! session_id = None →
  conversation_chains b !! session_id = None →
  construct_ok e = true →
  generation e = None →
  let t := chat b e message session_id in
  memories (bot_after t) !! session_id = Some [] ∧
  is_Some (conversation_chains (bot_after t) !! session_id) ∧
  get_conversation_history (bot_after t) session_id = [] ∧
  response t = _get_error_response b.
Proof.
  intros Hm Hk Hc Hg t.
  pose proof (generation_failure_fails b e message session_id Hg) as Hf.
  destruct (chat_failure_fallback_aux b e message session_id Hf) as [Hr _].
  assert (Hb : bot_after t =
               with_chains (with_memories b (<[session_id := []]> (memories b)))
                 (<[session_id :=
                      match vector_store b with
                      | Some h => if truthy (vector_store b)
                                  then ConversationalRetrievalChain h session_id
                                  else ConversationChain session_id
                      | None => ConversationChain session_id
                      end]> (conversation_chains b))).
  { subst t. rewrite bot_after_chat.
    unfold chat_try, _get_or_create_chain, _get_or_create_memory.
    rewrite Hk, Hm, Hc. simpl.
    unfold call_chain, predict. rewrite Hg.
    repeat (case_match; simplify_eq/=); done. }
  repeat split; [| | |done].
  - rewrite Hb. simpl. apply lookup_insert_eq.
  - rewrite Hb. simpl. rewrite lookup_insert_eq. eauto.
  - unfold get_conversation_history. rewrite Hb. simpl.
    by rewrite lookup_insert_eq.
Qed.

Lemma failed_turn_registers_session_witness :
  let b := init default_settings None in
  let e := {| construct_ok := true; retrieval := None; generation := None |} in
  let t := chat b e "Hello" "session-9" in
  (memories b !! "session-9" = None ∧
   conversation_chains b !! "session-9" = None ∧
   construct_ok e = true ∧ generation e = None) ∧
  memories (bot_after t) !! "session-9" = Some [] ∧
  is_Some (conversation_chains (bot_after t) !! "session-9") ∧
  get_conversation_history (bot_after t) "session-9" = [] ∧
  response t = _get_error_response b.
Proof.
  intros b e t. split; [repeat split; reflexivity|].
  apply (failed_turn_registers_session b e "Hello" "session-9");
    reflexivity.
Defined.

End ChatbotProofs.

(** * Properties of the knowledge-base builder *)

Module KnowledgeBaseProofs.
Import KnowledgeBase.

Lemma loaders_supported ext :
  is_Some (loaders ext) ↔ ext ∈ supported_extensions.
Proof.
  unfold loaders, supported_extensions.
  rewrite !elem_of_cons, elem_of_nil. split.
  - intros [c Hc]. revert Hc.
    repeat (case_bool_decide; [tauto|]). done.
  - intros [->|[->|[->|[->|[]]]]]; simpl; eauto.
Qed.

Lemma loaders_None ext :
  loaders ext = None ↔ ext ∉ supported_extensions.
Proof.
  rewrite <- loaders_supported. destruct (loaders ext); split; intros H.
  - done.
  - exfalso. apply H. eauto.
  - by intros [? ?].
  - done.
Qed.

Section Libraries.

Variable load : LoaderClass → string → string → option (list Document).
Variable split_text : nat → nat → string → list string.

Lemma load_entries_app l1 l2 :
  load_entries load (l1 ++ l2) =
  ((load_entries load l1).1 ++ (load_entries load l2).1,
   (load_entries load l1).2 ++ (load_entries load l2).2).
Proof.
  induction l1 as [|[p [|data]] l1 IH]; simpl.
  - by destruct (load_entries load l2).
  - done.
  - rewrite IH.
    destruct (load_file load p data) as [d lg].
    destruct (load_entries load l1) as [d1 lg1]. simpl.
    by rewrite !app_assoc.
Qed.

Lemma rglob_app fs1 fs2 d : rglob (fs1 ++ fs2) d = rglob fs1 d ++ rglob fs2 d.
Proof. unfold rglob. apply List.filter_app. Qed.

Lemma path_exists_spec fs p :
  path_exists fs p = true ↔ p = [] ∨ p ∈ map fst fs.
Proof.
  unfold path_exists. rewrite orb_true_iff, bool_decide_eq_true.
  apply or_iff_compat_l. rewrite existsb_exists. split.
  - intros ([q n] & Hin & Hq). unfold is_path in Hq.
    apply bool_decide_eq_true in Hq. simpl in Hq. subst q.
    apply list_elem_of_fmap. exists (p, n). split; [done|].
    by apply list_elem_of_In.
  - intros H. apply list_elem_of_fmap in H as ([q n] & -> & Hin).
    exists (q, n). split; [by apply list_elem_of_In|].
    unfold is_path. by apply bool_decide_eq_true.
Qed.

Lemma is_below_irrefl d : is_below d d = false.
Proof.
  induction d as [|x d IH]; [done|]. simpl. rewrite IH. apply andb_false_r.
Qed.

Lemma is_below_app d x : is_below d (d ++ [x]) = true.
Proof.
  induction d as [|y d IH]; [done|]. simpl.
  by rewrite bool_decide_eq_true_2, IH.
Qed.

Lemma path_exists_remove fs1 fs2 p n dir :
  p ≠ dir →
  path_exists (fs1 ++ (p, n) :: fs2) dir = path_exists (fs1 ++ fs2) dir.
Proof.
  intros Hne. unfold path_exists. rewrite !existsb_app. simpl.
  replace (is_path dir (p, n)) with false; [done|].
  unfold is_path. simpl. by rewrite bool_decide_eq_false_2.
Qed.

Lemma rglob_cons e fs d :
  rglob (e :: fs) d = if is_below d e.1 then e :: rglob fs d else rglob fs d.
Proof. done. Qed.

Lemma elem_of_rglob e fs d : e ∈ rglob fs d ↔ e ∈ fs ∧ is_below d e.1 = true.
Proof. unfold rglob. rewrite !list_elem_of_In. apply filter_In. Qed.

Lemma load_file_unsupported p data :
  ¬ supported p → load_file load p data = ([], []).
Proof.
  intros H. unfold load_file.
  by apply loaders_None in H as ->.
Qed.

Lemma load_file_log p data q :
  InfoLoading q ∈ (load_file load p data).2 ↔ q = p ∧ supported p.
Proof.
  unfold load_file, supported. rewrite <- loaders_supported.
  destruct (loaders _) as [cls|]; simpl.
  - destruct (load cls (str p) data); simpl;
      rewrite !elem_of_cons, elem_of_nil; split.
    + intros [[= ->]|[[=]|[]]]. eauto.
    + intros [-> _]. by left.
    + intros [[= ->]|[[=]|[]]]. eauto.
    + intros [-> _]. by left.
  - rewrite elem_of_nil. split; [done|]. by intros [_ [? ?]].
Qed.

Lemma load_entries_log entries q :
  InfoLoading q ∈ (load_entries load entries).2 ↔
  (∃ data, (q, File data) ∈ entries) ∧ supported q.
Proof.
  induction entries as [|[p [|data]] entries IH]; simpl.
  - rewrite elem_of_nil. split; [done|]. intros [[d H] _].
    by apply elem_of_nil in H.
  - rewrite IH. split; intros [[d H] Hs]; (split; [|done]); exists d.
    + by right.
    + apply elem_of_cons in H as [[=]|H]; done.
  - pose proof (load_file_log p data q) as Hf.
    destruct (load_file load p data) as [docs lg].
    destruct (load_entries load entries) as [docs' lg']. simpl in *.
    rewrite elem_of_app, Hf, IH. split.
    + intros [[-> Hs]|[[d H] Hs]]; (split; [|done]).
      * exists data. by left.
      * exists d. by right.
    + intros [[d H] Hs]. apply elem_of_cons in H as [[= -> ->]|H].
      * by left.
      * right. eauto.
Qed.

(** *** What the documents returned come from *)

Lemma load_entries_docs entries d :
  d ∈ (load_entries load entries).1 ↔
  ∃ p data, (p, File data) ∈ entries ∧ d ∈ (load_file load p data).1.
Proof.
  induction entries as [|[q [|data']] entries IH]; simpl.
  - rewrite elem_of_nil. split; [done|]. intros (p & data & H & _).
    by apply elem_of_nil in H.
  - rewrite IH. split; intros (p & data & H & Hd); exists p, data;
      (split; [|done]).
    + by right.
    + apply elem_of_cons in H as [[=]|H]; done.
  - destruct (load_file load q data') as [docs lg] eqn:Ef.
    destruct (load_entries load entries) as [docs' lg']. simpl in *.
    rewrite elem_of_app, IH. split.
    + intros [H|(p & data & H & Hd)].
      * exists q, data'. rewrite Ef. split; [by left|done].
      * exists p, data. split; [by right|done].
    + intros (p & data & H & Hd).
      apply elem_of_cons in H as [[= -> ->]|H].
      * left. by rewrite Ef in Hd.
      * right. eauto.
Qed.

Lemma load_documents_docs fs dir d :
  path_exists fs dir = true →
  d ∈ (load_documents load fs dir).1 ↔
  ∃ p data, (p, File data) ∈ fs ∧ is_below dir p = true ∧
            d ∈ (load_file load p data).1.
Proof.
  intros Hex. unfold load_documents. rewrite Hex. simpl.
  rewrite load_entries_docs. split.
  - intros (p & data & H & Hd). apply elem_of_rglob in H as [H Hb]. eauto.
  - intros (p & data & H & Hb & Hd). exists p, data. split; [|done].
    by apply elem_of_rglob.
Qed.

Lemma elem_of_load_file p data d :
  d ∈ (load_file load p data).1 ↔
  ∃ cls docs d0,
    loaders (lower (suffix (name p))) = Some cls ∧
    load cls (str p) data = Some docs ∧ d0 ∈ docs ∧
    d = add_metadata p (lower (suffix (name p))) d0.
Proof.
  unfold load_file. cbv zeta.
  destruct (loaders (lower (suffix (name p)))) as [cls|] eqn:El.
  - destruct (load cls (str p) data) as [docs|] eqn:Ed; cbn [fst].
    + rewrite list_elem_of_fmap. split.
      * intros (d0 & -> & Hd0). by exists cls, docs, d0.
      * intros (cls' & docs' & d0 & [= <-] & Hd & Hd0 & ->).
        rewrite Ed in Hd. injection Hd as <-. eauto.
    + rewrite elem_of_nil. split; [done|].
      intros (cls' & docs' & d0 & [= <-] & Hd & _). by rewrite Ed in Hd.
  - cbn [fst]. rewrite elem_of_nil. split; [done|].
    by intros (cls' & docs' & d0 & [=] & _).
Qed.

(** C6: a file whose loader raises does not stop the batch.  The error is
    logged for the file, and the documents returned are those of the other
    files, as if the failing file were not there: every document that the
    loader of another supported file below the directory returns is
    returned, stamped with the path and the extension of its file, and
    nothing else is returned. *)
Theorem load_documents_skips_failing_file fs1 fs2 p data dir cls :
  path_exists (fs1 ++ fs2) dir = true →
  is_below dir p = true →
  loaders (lower (suffix (name p))) = Some cls →
  load cls (str p) data = None →
  (load_documents load (fs1 ++ (p, File data) :: fs2) dir).1 =
    (load_documents load (fs1 ++ fs2) dir).1 ∧
  ErrorLoading p ∈ (load_documents load (fs1 ++ (p, File data) :: fs2) dir).2 ∧
  (∀ q data' cls' docs d0,
     (q, File data') ∈ fs1 ++ (p, File data) :: fs2 →
     is_below dir q = true →
     loaders (lower (suffix (name q))) = Some cls' →
     load cls' (str q) data' = Some docs →
     d0 ∈ docs →
     add_metadata q (lower (suffix (name q))) d0 ∈
       (load_documents load (fs1 ++ (p, File data) :: fs2) dir).1) ∧
  (∀ d,
     d ∈ (load_documents load (fs1 ++ (p, File data) :: fs2) dir).1 →
     ∃ q data' cls' docs d0,
       (q, File data') ∈ fs1 ++ fs2 ∧
       is_below dir q = true ∧
       loaders (lower (suffix (name q))) = Some cls' ∧
       load cls' (str q) data' = Some docs ∧
       d0 ∈ docs ∧
       d = add_metadata q (lower (suffix (name q))) d0).
Proof.
  intros Hex Hb Hcls Hload.
  assert (Hne : p ≠ dir).
  { intros ->. by rewrite is_below_irrefl in Hb. }
  assert (Hex' : path_exists (fs1 ++ (p, File data) :: fs2) dir = true).
  { by rewrite (path_exists_remove _ _ _ _ _ Hne). }
  assert (Heq : (load_documents load (fs1 ++ (p, File data) :: fs2) dir).1 =
                (load_documents load (fs1 ++ fs2) dir).1 ∧
                ErrorLoading p ∈
                (load_documents load (fs1 ++ (p, File data) :: fs2) dir).2).
  { unfold load_documents. rewrite Hex', Hex. simpl.
    rewrite !rglob_app, rglob_cons. simpl. rewrite Hb.
    rewrite !load_entries_app. simpl.
    unfold load_file. rewrite Hcls, Hload.
    destruct (load_entries load (rglob fs2 dir)) as [d2 lg2]. simpl.
    split; [done|].
    rewrite elem_of_app. right. rewrite !elem_of_cons. auto. }
  destruct Heq as [Heq Herr].
  split; [done|]. split; [done|]. split.
  - intros q data' cls' docs d0 Hin Hbq Hl Hld Hd0.
    apply (load_documents_docs _ _ _ Hex'). exists q, data'.
    split; [done|]. split; [done|].
    apply elem_of_load_file. by exists cls', docs, d0.
  - intros d Hd. rewrite Heq in Hd.
    apply (load_documents_docs _ _ _ Hex) in Hd
      as (q & data' & Hin & Hbq & Hd).
    apply elem_of_load_file in Hd as (cls' & docs & d0 & Hl & Hld & Hd0 & ->).
    by exists q, data', cls', docs, d0.
Qed.

(** C10: loading from a directory that does not exist returns no document
    (and only warns); a file whose lower-cased extension is not one of
    .txt, .pdf, .csv and .md changes neither the documents nor the log;
    and in an existing directory a loader is started on a file exactly
    when the file lies below the directory and its lower-cased extension
    is one of the four. *)
Theorem load_documents_supported_only :
  (∀ fs dir, path_exists fs dir = false →
     load_documents load fs dir = ([], [WarnNoDirectory dir])) ∧
  (∀ fs1 fs2 p data dir, p ≠ dir → ¬ supported p →
     load_documents load (fs1 ++ (p, File data) :: fs2) dir =
     load_documents load (fs1 ++ fs2) dir) ∧
  (∀ fs dir p, path_exists fs dir = true →
     (InfoLoading p ∈ (load_documents load fs dir).2 ↔
      (∃ data, (p, File data) ∈ fs) ∧ is_below dir p = true ∧
      lower (suffix (name p)) ∈ [".txt"; ".pdf"; ".csv"; ".md"])).
Proof.
  split; [|split].
  - intros fs dir H. unfold load_documents. by rewrite H.
  - intros fs1 fs2 p data dir Hne Hs. unfold load_documents.
    rewrite (path_exists_remove _ _ _ _ _ Hne).
    destruct (path_exists (fs1 ++ fs2) dir); simpl; [|done].
    rewrite !rglob_app, rglob_cons. simpl.
    destruct (is_below dir p); [|done].
    rewrite !load_entries_app. simpl.
    rewrite (load_file_unsupported _ _ Hs).
    by destruct (load_entries load (rglob fs2 dir)).
  - intros fs dir p Hex. unfold load_documents. rewrite Hex. simpl.
    rewrite load_entries_log. unfold supported, supported_extensions.
    split.
    + intros [[d H] Hs]. apply elem_of_rglob in H as [H Hb]. eauto.
    + intros ([d H] & Hb & Hs). split; [|done]. exists d.
      by apply elem_of_rglob.
Qed.

(** *** The file system operations *)

Lemma path_exists_app_l fs l p :
  path_exists fs p = true → path_exists (fs ++ l) p = true.
Proof.
  rewrite !path_exists_spec, List.map_app, elem_of_app. tauto.
Qed.

Lemma path_exists_app_r fs p n : path_exists (fs ++ [(p, n)]) p = true.
Proof.
  rewrite path_exists_spec, List.map_app, elem_of_app. right. right.
  simpl. by left.
Qed.

Lemma mkdirs_exists rest : ∀ fs above,
  path_exists fs above = true →
  path_exists (mkdirs fs above rest) (above ++ rest) = true.
Proof.
  induction rest as [|x rest IH]; intros fs above H; simpl.
  - by rewrite app_nil_r.
  - rewrite (app_assoc above [x] rest : above ++ x :: rest = _).
    apply IH. destruct (path_exists fs (above ++ [x])) eqn:E; [done|].
    apply path_exists_app_r.
Qed.

Lemma mkdirs_extends rest : ∀ fs above p,
  path_exists fs p = true → path_exists (mkdirs fs above rest) p = true.
Proof.
  induction rest as [|x rest IH]; intros fs above p H; simpl; [done|].
  apply IH. destruct (path_exists fs (above ++ [x])); [done|].
  by apply path_exists_app_l.
Qed.

Lemma mkdir_exists fs p : path_exists (mkdir fs p) p = true.
Proof. apply (mkdirs_exists p fs []). done. Qed.

Lemma write_text_paths fs p data :
  map fst (write_text fs p data) =
  if path_exists fs p then map fst fs else map fst fs ++ [p].
Proof.
  unfold write_text. destruct (path_exists fs p).
  - rewrite List.map_map. apply List.map_ext. intros [q n].
    unfold is_path. simpl. case_bool_decide; simpl; congruence.
  - by rewrite List.map_app.
Qed.

Lemma write_text_extends fs p data q :
  path_exists fs q = true → path_exists (write_text fs p data) q = true.
Proof.
  rewrite !path_exists_spec, write_text_paths.
  destruct (path_exists fs p); [done|]. rewrite elem_of_app. tauto.
Qed.

Lemma elem_of_write_text fs p data e :
  e ∈ write_text fs p data →
  e = (p, File data) ∨ (e ∈ fs ∧ e.1 ≠ p).
Proof.
  unfold write_text. destruct (path_exists fs p) eqn:E.
  - intros H. apply list_elem_of_fmap in H as (e0 & -> & H0).
    unfold is_path. case_bool_decide; [by left|by right].
  - rewrite elem_of_app, elem_of_cons, elem_of_nil.
    intros [H|[->|[]]]; [|by left]. right. split; [done|].
    intros <-. apply not_true_iff_false in E. apply E.
    apply path_exists_spec. right.
    apply list_elem_of_fmap. by exists e.
Qed.

Lemma holds_write_text fs p data : p ≠ [] → holds (write_text fs p data) p data.
Proof.
  intros Hp. split.
  - rewrite write_text_paths. destruct (path_exists fs p) eqn:E.
    + apply path_exists_spec in E as [E|E]; done.
    + rewrite elem_of_app. right. by left.
  - intros n H. apply elem_of_write_text in H as [[= ->]|[_ H]]; done.
Qed.

Lemma holds_write_text_other fs p data q data' :
  q ≠ p → holds fs q data' → holds (write_text fs p data) q data'.
Proof.
  intros Hne [Hin Hall]. split.
  - rewrite write_text_paths. destruct (path_exists fs p); [done|].
    rewrite elem_of_app. by left.
  - intros n H. apply elem_of_write_text in H as [[= -> ->]|[H _]]; [done|].
    by apply Hall.
Qed.

Lemma write_text_id fs p data : holds fs p data → write_text fs p data = fs.
Proof.
  intros [Hin Hall]. unfold write_text.
  assert (E : path_exists fs p = true) by (apply path_exists_spec; auto).
  rewrite E. rewrite <- (List.map_id fs) at 2.
  apply List.map_ext_in. intros [q n] H. apply list_elem_of_In in H.
  unfold is_path. simpl. case_bool_decide; [subst q|done].
  by rewrite (Hall n H).
Qed.

Lemma holds_elem_of fs p data : holds fs p data → (p, File data) ∈ fs.
Proof.
  intros [Hin Hall]. apply list_elem_of_fmap in Hin as ([q n] & -> & H).
  simpl. by rewrite <- (Hall n H).
Qed.

(** *** Seeding the sample documents *)

Lemma write_samples_cons fs dir fn c items :
  (write_samples fs dir ((fn, c) :: items)).1 =
  (write_samples (write_text fs (dir ++ [fn]) (strip c)) dir items).1.
Proof. simpl. by destruct (write_samples _ dir items). Qed.

Lemma sample_path_ne dir (fn fn' : string) :
  fn ≠ fn' → dir ++ [fn] ≠ dir ++ [fn'].
Proof. intros Hne H. apply app_inv_head in H. congruence. Qed.

Lemma sample_path_not_nil dir (fn : string) : dir ++ [fn] ≠ [].
Proof. by destruct dir. Qed.

Lemma write_samples_extends items : ∀ fs dir q,
  path_exists fs q = true →
  path_exists (write_samples fs dir items).1 q = true.
Proof.
  induction items as [|[fn c] items IH]; intros fs dir q H; [done|].
  rewrite write_samples_cons. by apply IH, write_text_extends.
Qed.

Lemma holds_write_samples_other items : ∀ fs dir fn data,
  fn ∉ map fst items →
  holds fs (dir ++ [fn]) data →
  holds (write_samples fs dir items).1 (dir ++ [fn]) data.
Proof.
  induction items as [|[fn' c'] items IH]; intros fs dir fn data Hn H; [done|].
  rewrite write_samples_cons. simpl in Hn.
  apply not_elem_of_cons in Hn as [Hne Hn].
  apply IH; [done|]. apply holds_write_text_other; [|done].
  by apply sample_path_ne.
Qed.

Lemma holds_write_samples items : ∀ fs dir fn c,
  NoDup (map fst items) →
  (fn, c) ∈ items →
  holds (write_samples fs dir items).1 (dir ++ [fn]) (strip c).
Proof.
  induction items as [|[fn' c'] items IH]; intros fs dir fn c Hnd Hin.
  - by apply elem_of_nil in Hin.
  - rewrite write_samples_cons. simpl in Hnd.
    apply NoDup_cons in Hnd as [Hn Hnd].
    apply elem_of_cons in Hin as [[= -> ->]|Hin].
    + apply holds_write_samples_other; [done|].
      apply holds_write_text, sample_path_not_nil.
    + by apply IH.
Qed.

Lemma elem_of_write_samples items : ∀ fs dir e,
  e ∈ (write_samples fs dir items).1 →
  e ∈ fs ∨ ∃ fn c, (fn, c) ∈ items ∧ e = (dir ++ [fn], File (strip c)).
Proof.
  induction items as [|[fn' c'] items IH]; intros fs dir e H; [by left|].
  rewrite write_samples_cons in H. apply IH in H as [H|(fn & c & Hin & ->)].
  - apply elem_of_write_text in H as [->|[H _]]; [|by left].
    right. exists fn', c'. split; [by left|done].
  - right. exists fn, c. split; [by right|done].
Qed.

Lemma write_samples_id items : ∀ fs dir,
  (∀ fn c, (fn, c) ∈ items → holds fs (dir ++ [fn]) (strip c)) →
  (write_samples fs dir items).1 = fs.
Proof.
  induction items as [|[fn' c'] items IH]; intros fs dir H; [done|].
  rewrite write_samples_cons.
  rewrite write_text_id by (apply H; by left).
  apply IH. intros fn c Hin. apply H. by right.
Qed.

Lemma sample_names_NoDup : NoDup (map fst sample_content).
Proof. by apply (bool_decide_unpack _); vm_compute. Qed.

Lemma sample_names_txt fn c :
  (fn, c) ∈ sample_content → lower (suffix fn) = ".txt".
Proof.
  unfold sample_content. intros H.
  repeat (apply elem_of_cons in H as [[= -> ->]|H]; [by vm_compute|]).
  by apply elem_of_nil in H.
Qed.

Lemma name_sample_path dir (fn : string) : name (dir ++ [fn]) = fn.
Proof. unfold name. apply last_last. Qed.

Lemma load_file_sample dir fn c :
  (fn, c) ∈ sample_content →
  load TextLoader (str (dir ++ [fn])) (strip c) =
    Some [text_document (str (dir ++ [fn])) (strip c)] →
  (load_file load (dir ++ [fn]) (strip c)).1 = [sample_document dir fn c].
Proof.
  intros Hin Hl. unfold load_file.
  rewrite name_sample_path, (sample_names_txt _ _ Hin). simpl.
  by rewrite Hl.
Qed.

Lemma elem_of_split_documents ts documents d :
  d ∈ split_documents split_text ts documents ↔
  ∃ doc chunk,
    doc ∈ documents ∧
    chunk ∈ split_text (chunk_size ts) (chunk_overlap ts) (page_content doc) ∧
    d = {| page_content := chunk; metadata := metadata doc |}.
Proof.
  unfold split_documents. induction documents as [|doc0 documents IH].
  - simpl. rewrite elem_of_nil. split; [done|].
    intros (doc & chunk & H & _). by apply elem_of_nil in H.
  - cbn [flat_map]. rewrite elem_of_app, IH, list_elem_of_fmap. split.
    + intros [(chunk & -> & Hc)|(doc & chunk & Hd & Hc & ->)].
      * exists doc0, chunk. split; [by left|done].
      * exists doc, chunk. split; [by right|done].
    + intros (doc & chunk & Hd & Hc & ->).
      apply elem_of_cons in Hd as [->|Hd]; [left|right]; eauto.
Qed.

(** C5: when the documents directory yields no document, the build warns,
    writes the four sample files (company info, shipping policy, return
    policy, FAQ) into that directory, loads the directory again and builds
    the index from what it loaded.  When the text loader reads the sample
    files, the documents loaded are exactly the four sample documents, the
    chunks are exactly the chunks of the four sample texts, each with the
    metadata of its sample document, and the store returned by the index
    call holds exactly these chunks; when the index call raises, no store
    is returned at all.  With a splitter that returns at least one chunk
    for a text that is not empty, the chunks, and so the store, are not
    empty. *)
Theorem build_seeds_sample_corpus b index_ok fs documents_dir output_dir :
  let docs_dir :=
    from_option id (knowledge_base_path (settings b)) documents_dir in
  let out_dir :=
    from_option id (vector_store_path (settings b)) output_dir in
  (load_documents load (mkdir (mkdir fs docs_dir) out_dir) docs_dir).1 = [] →
  (∀ filename content, (filename, content) ∈ sample_content →
     load TextLoader (str (docs_dir ++ [filename])) (strip content) =
     Some [text_document (str (docs_dir ++ [filename])) (strip content)]) →
  let r := build_vector_store load split_text b index_ok fs
             documents_dir output_dir in
  let documents := (load_documents load (fs_after r) docs_dir).1 in
  WarnNoDocuments ∈ log r ∧
  (∀ filename content, (filename, content) ∈ sample_content →
     (docs_dir ++ [filename], File (strip content)) ∈ fs_after r) ∧
  (∀ d, d ∈ documents ↔
        ∃ filename content, (filename, content) ∈ sample_content ∧
                            d = sample_document docs_dir filename content) ∧
  documents ≠ [] ∧
  splits r = split_documents split_text (text_splitter b) documents ∧
  (∀ d, d ∈ splits r ↔
        ∃ filename content chunk,
          (filename, content) ∈ sample_content ∧
          chunk ∈ split_text (chunk_size (text_splitter b))
                    (chunk_overlap (text_splitter b)) (strip content) ∧
          d = {| page_content := chunk;
                 metadata :=
                   metadata (sample_document docs_dir filename content) |}) ∧
  vectorstore r = (if index_ok then Some (splits r) else None) ∧
  (index_ok = true → InfoStoreCreated out_dir ∈ log r) ∧
  ((∀ size overlap text, text ≠ "" → split_text size overlap text ≠ []) →
   splits r ≠ [] ∧ ∀ store, vectorstore r = Some store → store ≠ []).
Proof.
  intros docs_dir out_dir Hempty Htext r documents.
  set (fs1 := mkdir (mkdir fs docs_dir) out_dir) in *.
  set (fs2 := (write_samples fs1 docs_dir sample_content).1).
  assert (Hex1 : path_exists fs1 docs_dir = true).
  { apply mkdirs_extends, mkdir_exists. }
  assert (Hex2 : path_exists fs2 docs_dir = true).
  { by apply write_samples_extends. }
  assert (Hr : fs_after r = fs2 ∧ WarnNoDocuments ∈ log r ∧
               splits r = split_documents split_text (text_splitter b)
                            (load_documents load fs2 docs_dir).1 ∧
               vectorstore r = (if index_ok then Some (splits r) else None) ∧
               (index_ok = true → InfoStoreCreated out_dir ∈ log r)).
  { subst r. unfold build_vector_store.
    fold docs_dir out_dir. fold fs1.
    destruct (load_documents load fs1 docs_dir) as [docs lg1] eqn:E1.
    simpl in Hempty. subst docs.
    unfold _create_sample_documents. subst fs2.
    destruct (write_samples fs1 docs_dir sample_content) as [fs2 lgs].
    simpl.
    destruct (load_documents load fs2 docs_dir) as [docs2 lg2].
    destruct index_ok; simpl; (split; [done|]); (split; [set_solver|]);
      (split; [done|]); (split; [done|]); [|done].
    intros _. set_solver. }
  destruct Hr as (Hfs & Hw & Hs & Hstore & Hlog).
  assert (Hfiles : ∀ filename content, (filename, content) ∈ sample_content →
            (docs_dir ++ [filename], File (strip content)) ∈ fs2).
  { intros fn c Hin. apply holds_elem_of.
    apply holds_write_samples; [apply sample_names_NoDup|done]. }
  assert (Hdocs : ∀ d, d ∈ documents ↔
            ∃ filename content, (filename, content) ∈ sample_content ∧
                                d = sample_document docs_dir filename content).
  { intros d. subst documents. rewrite Hfs.
    rewrite (load_documents_docs _ _ _ Hex2). split.
    - intros (p & data & Hin & Hb & Hd).
      apply elem_of_write_samples in Hin as [Hin|(fn & c & Hin & [= -> ->])].
      + exfalso. apply (elem_of_nil d). rewrite <- Hempty.
        apply (load_documents_docs _ _ _ Hex1). eauto.
      + exists fn, c. split; [done|].
        rewrite (load_file_sample _ _ _ Hin (Htext _ _ Hin)) in Hd.
        by apply list_elem_of_singleton in Hd.
    - intros (fn & c & Hin & ->).
      exists (docs_dir ++ [fn]), (strip c). split; [by apply Hfiles|].
      split; [apply is_below_app|].
      rewrite (load_file_sample _ _ _ Hin (Htext _ _ Hin)).
      by apply list_elem_of_singleton. }
  assert (Hfaq : ("faq.txt", List.last (map snd sample_content) "")
                 ∈ sample_content).
  { unfold sample_content. simpl. do 3 right. by left. }
  assert (Hsp : splits r =
                split_documents split_text (text_splitter b) documents).
  { subst documents. by rewrite Hs, Hfs. }
  assert (Hchunks : ∀ d, d ∈ splits r ↔
            ∃ filename content chunk,
              (filename, content) ∈ sample_content ∧
              chunk ∈ split_text (chunk_size (text_splitter b))
                        (chunk_overlap (text_splitter b)) (strip content) ∧
              d = {| page_content := chunk;
                     metadata :=
                       metadata (sample_document docs_dir filename content) |}).
  { intros d. rewrite Hsp, elem_of_split_documents. split.
    - intros (doc & chunk & Hd & Hc & ->).
      apply Hdocs in Hd as (fn & c & Hin & ->). by exists fn, c, chunk.
    - intros (fn & c & chunk & Hin & Hc & ->).
      exists (sample_document docs_dir fn c), chunk.
      split; [|done]. apply Hdocs. eauto. }
  split; [done|]. split; [by rewrite Hfs|]. split; [done|]. split.
  { intros Hnil.
    apply (elem_of_nil (sample_document docs_dir "faq.txt"
                          (List.last (map snd sample_content) ""))).
    rewrite <- Hnil. apply Hdocs. eauto. }
  split; [done|]. split; [done|]. split; [done|]. split; [done|].
  intros Hsplit.
  assert (Hne : splits r ≠ []).
  { set (c := List.last (map snd sample_content) "") in *.
    assert (Hc : strip c ≠ "") by (by vm_compute).
    pose proof (Hsplit (chunk_size (text_splitter b))
                  (chunk_overlap (text_splitter b)) (strip c) Hc) as Hx.
    destruct (split_text (chunk_size (text_splitter b))
                (chunk_overlap (text_splitter b)) (strip c))
      as [|chunk chunks] eqn:Ec; [done|].
    intros Hnil.
    apply (elem_of_nil
             {| page_content := chunk;
                metadata := metadata (sample_document docs_dir "faq.txt" c) |}).
    rewrite <- Hnil. apply Hchunks. exists "faq.txt", c, chunk.
    split; [done|]. split; [|done]. rewrite Ec. by left. }
  split; [done|]. intros store Hst. rewrite Hstore in Hst.
  destruct index_ok; [|done]. by injection Hst as <-.
Qed.

(** *** Building twice *)

Lemma mkdirs_id rest : ∀ fs above,
  (∀ k, path_exists fs (above ++ take k rest) = true) →
  mkdirs fs above rest = fs.
Proof.
  induction rest as [|x rest IH]; intros fs above H; simpl; [done|].
  pose proof (H 1) as H1. simpl in H1. rewrite take_0 in H1. rewrite H1.
  apply IH. intros k. rewrite <- app_assoc. apply (H (S k)).
Qed.

Lemma mkdirs_ancestors rest : ∀ fs above k,
  path_exists fs above = true →
  path_exists (mkdirs fs above rest) (above ++ take k rest) = true.
Proof.
  induction rest as [|x rest IH]; intros fs above k H.
  - by rewrite take_nil, app_nil_r.
  - simpl mkdirs.
    set (fs' := if path_exists fs (above ++ [x]) then fs
                else fs ++ [(above ++ [x], Directory)]).
    assert (Hx : path_exists fs' (above ++ [x]) = true).
    { subst fs'. destruct (path_exists fs (above ++ [x])) eqn:E; [done|].
      apply path_exists_app_r. }
    destruct k as [|k]; simpl.
    + rewrite app_nil_r. apply mkdirs_extends. subst fs'.
      destruct (path_exists fs (above ++ [x])); [done|].
      by apply path_exists_app_l.
    + rewrite (app_assoc above [x] (take k rest) : above ++ x :: _ = _).
      by apply IH.
Qed.

Lemma mkdir_again fs0 fs p :
  (∀ q, path_exists (mkdir fs0 p) q = true → path_exists fs q = true) →
  mkdir fs p = fs.
Proof.
  intros H. apply mkdirs_id. intros k. apply H.
  by apply (mkdirs_ancestors p fs0 [] k).
Qed.

Lemma build_vector_store_spec b index_ok fs documents_dir output_dir :
  let docs_dir :=
    from_option id (knowledge_base_path (settings b)) documents_dir in
  let out_dir :=
    from_option id (vector_store_path (settings b)) output_dir in
  let fs1 := mkdir (mkdir fs docs_dir) out_dir in
  let seeded := (write_samples fs1 docs_dir sample_content).1 in
  let r := build_vector_store load split_text b index_ok fs
             documents_dir output_dir in
  (fs_after r, splits r) =
  match (load_documents load fs1 docs_dir).1 with
  | [] => (seeded,
           split_documents split_text (text_splitter b)
             (load_documents load seeded docs_dir).1)
  | _ => (fs1,
          split_documents split_text (text_splitter b)
            (load_documents load fs1 docs_dir).1)
  end.
Proof.
  intros docs_dir out_dir fs1 seeded r. subst r seeded.
  unfold build_vector_store, _create_sample_documents.
  fold docs_dir out_dir. fold fs1.
  destruct (load_documents load fs1 docs_dir) as [[|d docs] lg1]; cbn [fst].
  - destruct (write_samples fs1 docs_dir sample_content) as [fs2 lgs].
    cbn [fst].
    destruct (load_documents load fs2 docs_dir) as [docs2 lg2].
    by destruct index_ok.
  - by destruct index_ok.
Qed.

(** X26: building again from the file system that a build has left finds
    the two directories and, if it had seeded them, the sample files in
    place: the builder makes no directory and writes no sample file, and
    hands the same chunks to the index, whether or not the index could be
    created either time. *)
Theorem rebuild_hands_over_the_same_chunks
    b index_ok index_ok' fs documents_dir output_dir :
  let r := build_vector_store load split_text b index_ok fs
             documents_dir output_dir in
  let r' := build_vector_store load split_text b index_ok' (fs_after r)
              documents_dir output_dir in
  splits r' = splits r ∧ fs_after r' = fs_after r.
Proof.
  intros r r'.
  pose proof (build_vector_store_spec b index_ok fs
                documents_dir output_dir) as H1.
  pose proof (build_vector_store_spec b index_ok' (fs_after r)
                documents_dir output_dir) as H2.
  cbn zeta in H1, H2. fold r in H1. fold r' in H2.
  set (docs_dir :=
         from_option id (knowledge_base_path (settings b)) documents_dir)
    in *.
  set (out_dir :=
         from_option id (vector_store_path (settings b)) output_dir) in *.
  set (fs1 := mkdir (mkdir fs docs_dir) out_dir) in *.
  set (seeded := (write_samples fs1 docs_dir sample_content).1) in *.
  assert (Hext : ∀ q, path_exists fs1 q = true →
                      path_exists (fs_after r) q = true).
  { intros q Hq.
    destruct ((load_documents load fs1 docs_dir).1);
      injection H1 as -> _; [|done].
    by apply write_samples_extends. }
  assert (Hmk : mkdir (mkdir (fs_after r) docs_dir) out_dir = fs_after r).
  { rewrite (mkdir_again fs (fs_after r) docs_dir).
    - apply (mkdir_again (mkdir fs docs_dir)). exact Hext.
    - intros q Hq. apply Hext. by apply mkdirs_extends. }
  rewrite Hmk in H2.
  destruct ((load_documents load fs1 docs_dir).1) as [|d docs] eqn:E1.
  - injection H1 as Hfs Hsp. rewrite Hfs in H2.
    assert (Hid : (write_samples seeded docs_dir sample_content).1 = seeded).
    { apply write_samples_id. intros fn c Hin.
      apply holds_write_samples; [apply sample_names_NoDup|done]. }
    rewrite Hid in H2.
    destruct ((load_documents load seeded docs_dir).1);
      injection H2 as -> ->; by rewrite Hfs, Hsp.
  - injection H1 as Hfs Hsp. rewrite Hfs, E1 in H2.
    injection H2 as -> ->. by rewrite Hfs, Hsp.
Qed.

End Libraries.

Lemma load_documents_skips_failing_file_witness :
  let fs1 := [(["kb"], Directory); (["kb"; "hours.txt"], File "9 to 5")] in
  let fs2 := [(["kb"; "faq.md"], File "# FAQ");
              (["kb"; "returns.TXT"], File "30 days")] in
  let p := ["kb"; "catalogue.pdf"] in
  let fs := fs1 ++ (p, File "%PDF-1.7") :: fs2 in
  (path_exists (fs1 ++ fs2) ["kb"] = true ∧
   is_below ["kb"] p = true ∧
   loaders (lower (suffix (name p))) = Some PyPDFLoader ∧
   text_only_load PyPDFLoader (str p) "%PDF-1.7" = None) ∧
  ((load_documents text_only_load fs ["kb"]).1 =
     (load_documents text_only_load (fs1 ++ fs2) ["kb"]).1 ∧
   ErrorLoading p ∈ (load_documents text_only_load fs ["kb"]).2 ∧
   (∀ q data' cls' docs d0,
      (q, File data') ∈ fs →
      is_below ["kb"] q = true →
      loaders (lower (suffix (name q))) = Some cls' →
      text_only_load cls' (str q) data' = Some docs →
      d0 ∈ docs →
      add_metadata q (lower (suffix (name q))) d0 ∈
        (load_documents text_only_load fs ["kb"]).1) ∧
   (∀ d,
      d ∈ (load_documents text_only_load fs ["kb"]).1 →
      ∃ q data' cls' docs d0,
        (q, File data') ∈ fs1 ++ fs2 ∧
        is_below ["kb"] q = true ∧
        loaders (lower (suffix (name q))) = Some cls' ∧
        text_only_load cls' (str q) data' = Some docs ∧
        d0 ∈ docs ∧
        d = add_metadata q (lower (suffix (name q))) d0)) ∧
  load_documents text_only_load fs ["kb"] =
    ([{| page_content := "9 to 5";
         metadata := [("source", "kb/hours.txt"); ("file_type", ".txt")] |};
      {| page_content := "30 days";
         metadata := [("source", "kb/returns.TXT"); ("file_type", ".txt")] |}],
     [InfoLoading ["kb"; "hours.txt"]; InfoLoaded 1 "hours.txt";
      InfoLoading p; ErrorLoading p;
      InfoLoading ["kb"; "faq.md"]; ErrorLoading ["kb"; "faq.md"];
      InfoLoading ["kb"; "returns.TXT"]; InfoLoaded 1 "returns.TXT"]).
Proof.
  intros fs1 fs2 p fs. split; [repeat split; reflexivity|]. split.
  - apply (load_documents_skips_failing_file text_only_load fs1 fs2 p
             "%PDF-1.7" ["kb"] PyPDFLoader); reflexivity.
  - reflexivity.
Defined.

Example load_documents_example :
  (load_documents text_only_load
     [(["kb"], Directory); (["kb"; "hours.txt"], File "9 to 5");
      (["kb"; "catalogue.pdf"], File "%PDF-1.7");
      (["kb"; "notes.docx"], File "PK");
      (["kb"; "old"], Directory);
      (["kb"; "old"; "returns.TXT"], File "30 days");
      (["elsewhere"; "x.txt"], File "no")] ["kb"]).1 =
  [{| page_content := "9 to 5";
      metadata := [("source", "kb/hours.txt"); ("file_type", ".txt")] |};
   {| page_content := "30 days";
      metadata := [("source", "kb/old/returns.TXT"); ("file_type", ".txt")] |}].
Proof. reflexivity. Qed.

Lemma build_seeds_sample_corpus_witness :
  let b := init default_settings in
  let docs_dir := ["data"; "knowledge_base"] in
  let out_dir := ["data"; "vectorstore"] in
  let r := build_vector_store text_only_load unsplit b true [] None None in
  let documents := (load_documents text_only_load (fs_after r) docs_dir).1 in
  (load_documents text_only_load
     (mkdir (mkdir [] docs_dir) out_dir) docs_dir).1 = [] ∧
  (WarnNoDocuments ∈ log r ∧
   (∀ filename content, (filename, content) ∈ sample_content →
      (docs_dir ++ [filename], File (strip content)) ∈ fs_after r) ∧
   (∀ d, d ∈ documents ↔
         ∃ filename content, (filename, content) ∈ sample_content ∧
                             d = sample_document docs_dir filename content) ∧
   documents ≠ [] ∧
   splits r = split_documents unsplit (text_splitter b) documents ∧
   (∀ d, d ∈ splits r ↔
         ∃ filename content chunk,
           (filename, content) ∈ sample_content ∧
           chunk ∈ unsplit (chunk_size (text_splitter b))
                     (chunk_overlap (text_splitter b)) (strip content) ∧
           d = {| page_content := chunk;
                  metadata :=
                    metadata (sample_document docs_dir filename content) |}) ∧
   vectorstore r = Some (splits r) ∧
   (true = true → InfoStoreCreated out_dir ∈ log r) ∧
   ((∀ size overlap text, text ≠ "" → unsplit size overlap text ≠ []) →
    splits r ≠ [] ∧ ∀ store, vectorstore r = Some store → store ≠ [])) ∧
  vectorstore r =
    Some (map (λ sample, sample_document docs_dir sample.1 sample.2)
              sample_content) ∧
  map (λ d, dict_get (metadata d) "source") (splits r) =
    [Some "data/knowledge_base/company_info.txt";
     Some "data/knowledge_base/shipping_policy.txt";
     Some "data/knowledge_base/return_policy.txt";
     Some "data/knowledge_base/faq.txt"].
Proof.
  intros b docs_dir out_dir r documents. split; [reflexivity|]. split.
  - apply (build_seeds_sample_corpus text_only_load unsplit b true [] None None).
    + reflexivity.
    + intros filename content _. reflexivity.
  - split; vm_compute; reflexivity.
Defined.

End KnowledgeBaseProofs.

(** * Further properties of the session engine *)

Module ChatbotExtras.
Import Chatbot ChatbotProofs.

#[local] Set Warnings "-clear-no-such-hyp".

(** *** Which turns complete *)

Lemma chat_try_outcome b e m sid :
  consistent b →
  (chat_try b e m sid).1.1 =
  if match conversation_chains b !! sid with
     | Some _ => true
     | None => construct_ok e
     end
  then
    if truthy (vector_store b) then
      match retrieval e, generation e with
      | Some docs, Some answer => Some (answer, source_info_of docs)
      | _, _ => None
      end
    else
      match generation e with
      | Some answer => Some (answer, None)
      | None => None
      end
  else None.
Proof.
  intros Hc. unfold chat_try.
  destruct (get_or_create_chain_spec b e sid Hc) as [_ Hs].
  destruct (get_or_create_chain_fixed b e sid) as [_ Hv].
  assert (Hk : match conversation_chains b !! sid with
               | Some _ => true
               | None => construct_ok e
               end = bool_decide (is_Some (_get_or_create_chain b e sid).2)).
  { unfold _get_or_create_chain.
    destruct (conversation_chains b !! sid) eqn:E; simpl; [done|].
    by destruct (construct_ok e). }
  rewrite Hk. clear Hk.
  destruct (_get_or_create_chain b e sid) as [b1 [c|]]; simpl in *; [|done].
  destruct (Hs c eq_refl) as (Hm & _ & Hkind & _).
  rewrite Hv. destruct (truthy (vector_store b)).
  - destruct c as [h mem|mem]; [|done]. simpl.
    destruct (retrieval e), (generation e); done.
  - destruct c as [h mem|mem]; [done|]. simpl.
    by destruct (generation e).
Qed.

Lemma chat_on_success b e m sid answer src :
  (chat_try b e m sid).1.1 = Some (answer, src) →
  response (chat b e m sid) = answer ∧ sources (chat b e m sid) = src.
Proof.
  unfold chat.
  destruct (chat_try b e m sid) as [[[[r s0]|] b'] tr]; simpl; [|done].
  by intros [= -> ->].
Qed.

(** X3: in a state reached from a new bot, a turn ends with the fallback
    message exactly when no chain is cached for the session and the chain
    constructor raises, or the generation raises, or the index is in use
    and the retrieval raises. *)
Theorem turn_fails_iff s vs ops e message session_id :
  let b := run (init s vs) ops in
  failed b e message session_id ↔
  (conversation_chains b !! session_id = None ∧ construct_ok e = false) ∨
  generation e = None ∨
  (truthy vs = true ∧ retrieval e = None).
Proof.
  intros b.
  assert (Hc : consistent b) by apply run_consistent, consistent_init.
  assert (Hv : vector_store b = vs).
  { subst b. by destruct (run_fixed ops (init s vs)) as [_ ->]. }
  unfold failed. rewrite (chat_try_outcome _ _ _ _ Hc), Hv.
  destruct (conversation_chains b !! session_id) as [c|] eqn:E.
  - destruct (truthy vs), (retrieval e), (generation e);
      split; try done; intuition (discriminate || auto).
  - destruct (construct_ok e), (truthy vs), (retrieval e), (generation e);
      split; try done; intuition (discriminate || auto).
Qed.

(** X5: with a usable index, a turn whose retrieval returns [docs] and
    whose generation returns [answer] queries the retriever with the
    message, returns the answer, and returns the sources in the order of
    retrieval, one per document with its text and metadata; when nothing
    was retrieved the sources are absent. *)
Theorem grounded_turn_sources s vs ops e message session_id docs answer :
  truthy vs = true →
  construct_ok e = true →
  retrieval e = Some docs →
  generation e = Some answer →
  let t := chat (run (init s vs) ops) e message session_id in
  response t = answer ∧
  calls t = [CallRetriever message; CallLLM message] ∧
  (docs = [] → sources t = None) ∧
  (docs ≠ [] →
   ∃ infos, sources t = Some infos ∧
            map content infos = map page_content docs ∧
            map src_metadata infos = map metadata docs).
Proof.
  intros Hv Hk Hr Hg t. set (b := run (init s vs) ops) in *.
  assert (Hc : consistent b) by apply run_consistent, consistent_init.
  assert (Hvb : truthy (vector_store b) = true).
  { subst b. by destruct (run_fixed ops (init s vs)) as [_ ->]. }
  pose proof (chat_try_outcome b e message session_id Hc) as Ho.
  rewrite Hk, Hvb, Hr, Hg in Ho.
  assert (Ho' : (chat_try b e message session_id).1.1 =
                Some (answer, source_info_of docs)).
  { rewrite Ho. by destruct (conversation_chains b !! session_id). }
  destruct (chat_on_success _ _ _ _ _ _ Ho') as [Hresp Hsrc].
  fold t in Hresp, Hsrc.
  assert (Hcalls : calls t = [CallRetriever message; CallLLM message]).
  { subst t. unfold chat, chat_try.
    destruct (get_or_create_chain_spec b e session_id Hc) as [_ Hs].
    destruct (get_or_create_chain_fixed b e session_id) as [_ Hv1].
    destruct (construct_ok_chain b e session_id Hk) as [c Hcn].
    destruct (_get_or_create_chain b e session_id) as [b1 c']. simpl in *.
    subst c'. destruct (Hs c eq_refl) as (_ & _ & Hkind & _).
    rewrite Hv1, Hvb. rewrite Hvb in Hkind.
    destruct c as [h mem|mem]; [|done]. simpl. by rewrite Hr, Hg. }
  split; [done|]. split; [done|]. split.
  - intros ->. by rewrite Hsrc.
  - intros Hne. rewrite Hsrc. destruct docs as [|d docs]; [done|].
    eexists. split; [done|]. simpl. rewrite !List.map_map. done.
Qed.

Lemma grounded_turn_sources_witness :
  let vs := Some {| collection :=
              [{| page_content := "Free shipping over $50.";
                  metadata := [("source", "kb/shipping.txt")] |}] |} in
  let docs := [{| page_content := "Free shipping over $50.";
                  metadata := [("source", "kb/shipping.txt")] |}] in
  let e := {| construct_ok := true; retrieval := Some docs;
              generation := Some "Orders over $50 ship free." |} in
  let t := chat (run (init default_settings vs) []) e
             "Is shipping free?" "s1" in
  truthy vs = true ∧
  response t = "Orders over $50 ship free." ∧
  calls t = [CallRetriever "Is shipping free?"; CallLLM "Is shipping free?"] ∧
  (docs = [] → sources t = None) ∧
  (docs ≠ [] →
   ∃ infos, sources t = Some infos ∧
            map content infos = map page_content docs ∧
            map src_metadata infos = map metadata docs).
Proof.
  intros vs docs e t. split; [reflexivity|].
  apply (grounded_turn_sources default_settings vs [] e
           "Is shipping free?" "s1" docs "Orders over $50 ship free.");
    reflexivity.
Defined.

(** *** Sessions do not touch each other *)

(** X1: in a state reached from a new bot, a turn or a clearing made for
    one session leaves the history of every other session as it was,
    whether the turn completes or not. *)
Theorem sessions_are_isolated s vs ops e message sid other :
  sid ≠ other →
  let b := run (init s vs) ops in
  get_conversation_history (bot_after (chat b e message sid)) other =
    get_conversation_history b other ∧
  get_conversation_history (clear_conversation b sid).2 other =
    get_conversation_history b other.
Proof.
  intros Hne b.
  assert (Hc : consistent b) by apply run_consistent, consistent_init.
  split.
  - rewrite (chat_history _ _ _ _ _ Hc).
    destruct ((chat_try b e message sid).1.1) as [[a src]|]; [|done].
    by rewrite bool_decide_eq_false_2.
  - rewrite clear_history. by rewrite bool_decide_eq_false_2.
Qed.

Lemma sessions_are_isolated_witness :
  let b := run (init default_settings None)
             [Chat (answering "Hi!") "Hello" "alice"] in
  "bob" ≠ "alice" ∧
  get_conversation_history
    (bot_after (chat b (answering "Yes.") "Do you ship?" "bob")) "alice" =
    get_conversation_history b "alice" ∧
  get_conversation_history (clear_conversation b "bob").2 "alice" =
    get_conversation_history b "alice".
Proof.
  intros b. split; [done|].
  apply (sessions_are_isolated default_settings None
           [Chat (answering "Hi!") "Hello" "alice"] (answering "Yes.")
           "Do you ship?" "bob" "alice").
  done.
Defined.

(** *** Sessions are never released *)

Lemma dom_get_or_create_memory b sid :
  dom (memories (_get_or_create_memory b sid)) = {[sid]} ∪ dom (memories b).
Proof.
  unfold _get_or_create_memory.
  destruct (memories b !! sid) as [buf|] eqn:E; simpl.
  - assert (sid ∈ dom (memories b)) by (apply elem_of_dom; eauto).
    set_solver.
  - apply dom_insert_L.
Qed.

Lemma dom_get_or_create_chain b e sid :
  consistent b →
  dom (memories (_get_or_create_chain b e sid).1) = {[sid]} ∪ dom (memories b).
Proof.
  intros Hc. unfold _get_or_create_chain.
  destruct (conversation_chains b !! sid) as [c|] eqn:E; simpl.
  - destruct (Hc sid c E) as (_ & Hm & _).
    assert (sid ∈ dom (memories b)) by (by apply elem_of_dom).
    set_solver.
  - destruct (construct_ok e); simpl; apply dom_get_or_create_memory.
Qed.

Lemma dom_save_context ms m input output :
  dom (save_context ms m input output) = dom ms.
Proof. unfold save_context. apply dom_alter_L. Qed.

Lemma dom_chat b e m sid :
  consistent b →
  dom (memories (bot_after (chat b e m sid))) = {[sid]} ∪ dom (memories b).
Proof.
  intros Hc. rewrite bot_after_chat.
  rewrite <- (dom_get_or_create_chain b e sid Hc).
  unfold chat_try.
  destruct (_get_or_create_chain b e sid) as [b1 [c|]]; simpl; [|done].
  unfold call_chain, predict.
  repeat (case_match; simplify_eq/=); try done; apply dom_save_context.
Qed.

Lemma dom_clear b sid :
  dom (memories (clear_conversation b sid).2) = dom (memories b).
Proof.
  unfold clear_conversation. simpl.
  destruct (memories b !! sid) as [buf|] eqn:E.
  - assert (sid ∈ dom (memories b)) by (apply elem_of_dom; eauto).
    destruct (conversation_chains _ !! sid); simpl;
      rewrite dom_insert_L; set_solver.
  - by destruct (conversation_chains _ !! sid).
Qed.

Lemma chat_ids_cons op ops :
  chat_ids (op :: ops) =
  match op with
  | Chat _ _ sid => {[sid]} ∪ chat_ids ops
  | Clear _ => chat_ids ops
  end.
Proof. by destruct op. Qed.

Lemma dom_run ops : ∀ b,
  consistent b →
  dom (memories (run b ops)) = dom (memories b) ∪ chat_ids ops.
Proof.
  induction ops as [|op ops IH]; intros b Hc.
  - unfold chat_ids. simpl. set_solver.
  - change (run b (op :: ops)) with (run (step b op) ops).
    rewrite IH by (by apply step_consistent). rewrite chat_ids_cons.
    destruct op as [e m sid|sid]; cbn [step].
    + rewrite (dom_chat _ _ _ _ Hc). set_solver.
    + by rewrite dom_clear.
Qed.

(** X2: the sessions a bot keeps are exactly the ids that [chat] was
    ever called for, whether the turns completed or not; clearing
    releases none.  So [cleanup_old_sessions] warns exactly when more than
    100 distinct ids were used, and then reports their number. *)
Theorem sessions_are_never_released s vs ops max_age_hours :
  let b := run (init s vs) ops in
  dom (memories b) = chat_ids ops ∧
  cleanup_old_sessions b max_age_hours =
    if (100 <? size (chat_ids ops))%nat
    then [WarnHighSessions (size (chat_ids ops))]
    else [].
Proof.
  intros b.
  assert (H : dom (memories b) = chat_ids ops).
  { subst b. rewrite dom_run by apply consistent_init. simpl.
    rewrite dom_empty_L. set_solver. }
  split; [done|].
  unfold cleanup_old_sessions. by rewrite <- size_dom, H.
Qed.

(** *** The shape of a history *)

Lemma transcript_of_snoc xs m a :
  transcript_of (xs ++ [(m, a)]) = transcript_of xs ++ [(user, m); (assistant, a)].
Proof. unfold transcript_of. by rewrite flat_map_app. Qed.

Lemma turns_paired ops : ∀ b sid acc,
  (∃ xs, acc = transcript_of xs) →
  ∃ xs, turns b ops sid acc = transcript_of xs.
Proof.
  induction ops as [|op ops IH]; intros b sid acc [xs ->]; [by exists xs|].
  cbn [turns]. apply IH.
  destruct op as [e m s|s].
  - case_bool_decide; [|by exists xs].
    destruct ((chat_try b e m s).1.1) as [[a src]|]; [|by exists xs].
    exists (xs ++ [(m, a)]). by rewrite transcript_of_snoc.
  - case_bool_decide; [by exists []|by exists xs].
Qed.

(** X4: in a state reached from a new bot, the history of a session is a
    sequence of exchanges, each a user entry followed by an assistant
    entry; so its length is even. *)
Theorem history_is_made_of_exchanges s vs ops session_id :
  let h := get_conversation_history (run (init s vs) ops) session_id in
  ∃ xs, h = transcript_of xs ∧ List.length h = 2 * List.length xs.
Proof.
  intros h.
  destruct (turns_paired ops (init s vs) session_id []) as [xs Hxs];
    [by exists []|].
  exists xs.
  assert (Hh : h = transcript_of xs).
  { subst h. rewrite (run_turns ops (init s vs) session_id []);
      [done|apply consistent_init|done]. }
  split; [done|]. rewrite Hh. clear.
  induction xs as [|x xs IH]; [done|]. simpl. rewrite IH. lia.
Qed.

(** *** Clearing *)

Lemma with_memories_id b : with_memories b (memories b) = b.
Proof. by destruct b. Qed.

Lemma clear_conversation_eq b sid :
  (clear_conversation b sid).2 =
  with_chains
    (with_memories b
       match memories b !! sid with
       | Some _ => <[sid := []]> (memories b)
       | None => memories b
       end)
    (delete sid (conversation_chains b)).
Proof.
  unfold clear_conversation. cbn [snd].
  destruct (memories b !! sid) eqn:E; cbn [conversation_chains with_memories];
    destruct (conversation_chains b !! sid) eqn:E';
    rewrite ?(delete_id _ _ E'); by destruct b.
Qed.

(** X6: clearing a session deletes its chain and empties its memory,
    which stays registered if it was; the chains and memories of the
    other sessions are as before; clearing twice is clearing once; and
    the next turn of the session has to build a chain again, so it ends
    with the fallback message when the constructor raises. *)
Theorem clear_drops_chain_keeps_memory b sid :
  let b' := (clear_conversation b sid).2 in
  conversation_chains b' !! sid = None ∧
  memories b' !! sid = (λ _, []) <$> memories b !! sid ∧
  (∀ other, other ≠ sid →
     conversation_chains b' !! other = conversation_chains b !! other ∧
     memories b' !! other = memories b !! other) ∧
  clear_conversation b' sid = (true, b') ∧
  (∀ e message, construct_ok e = false → failed b' e message sid).
Proof.
  intros b'.
  assert (Hk : conversation_chains b' !! sid = None).
  { subst b'. rewrite clear_conversation_eq. simpl. apply lookup_delete_eq. }
  assert (Hm : memories b' !! sid = (λ _, []) <$> memories b !! sid).
  { subst b'. rewrite clear_conversation_eq. simpl.
    destruct (memories b !! sid) eqn:E; simpl; [apply lookup_insert_eq|done]. }
  split; [done|]. split; [done|]. split; [|split].
  - intros other Hne. subst b'. rewrite clear_conversation_eq. simpl.
    rewrite lookup_delete_ne by done. split; [done|].
    destruct (memories b !! sid); [by rewrite lookup_insert_ne|done].
  - assert (H2 : (clear_conversation b' sid).2 = b').
    { rewrite clear_conversation_eq. rewrite (delete_id _ _ Hk).
      destruct (memories b' !! sid) as [buf|] eqn:E.
      - assert (buf = []) as ->.
        { rewrite Hm in E. destruct (memories b !! sid); by simplify_eq/=. }
        rewrite insert_id by done. by destruct b'.
      - by destruct b'. }
    rewrite <- H2 at 2. reflexivity.
  - intros e message Hcons. unfold failed, chat_try, _get_or_create_chain.
    by rewrite Hk, Hcons.
Qed.

(** *** The cached chains *)

(** X7: in a state reached from a new bot, a chain cached for a session
    writes to the memory registered for that same session, that memory
    exists, and the chain retrieves exactly when the vector store counts
    as present. *)
Theorem cached_chain_belongs_to_session s vs ops sid c :
  conversation_chains (run (init s vs) ops) !! sid = Some c →
  chain_memory c = sid ∧
  is_Some (memories (run (init s vs) ops) !! sid) ∧
  is_retrieval c = truthy vs.
Proof.
  intros H.
  destruct (run_consistent ops (init s vs) (consistent_init s vs) sid c H)
    as (H1 & H2 & H3).
  destruct (run_fixed ops (init s vs)) as [_ Hv].
  by rewrite Hv in H3.
Qed.

Lemma cached_chain_belongs_to_session_witness :
  let ops := [Chat (answering "Hi!") "Hello" "s1"] in
  let c := ConversationChain "s1" in
  conversation_chains (run (init default_settings None) ops) !! "s1" = Some c ∧
  chain_memory c = "s1" ∧
  is_Some (memories (run (init default_settings None) ops) !! "s1") ∧
  is_retrieval c = truthy None.
Proof.
  intros ops c.
  assert (H : conversation_chains (run (init default_settings None) ops)
                !! "s1" = Some c) by reflexivity.
  split; [exact H|].
  exact (cached_chain_belongs_to_session default_settings None ops "s1" c H).
Defined.

(** *** Construction *)

Lemma new_bot_init s llm_provider w b :
  (new_bot s llm_provider w).1 = Some b → b = init s (chroma w).
Proof.
  unfold new_bot, _initialize_llm, _initialize_embeddings, _load_vector_store.
  repeat case_bool_decide;
    destruct (openai_ok w), (anthropic_ok w), (embeddings_ok w), (chroma w);
    simpl; try done; by intros [= <-].
Qed.

(** X8: constructing a bot returns one exactly when the provider is
    "openai" or "anthropic" (compared as written), its client constructor
    returns and the embeddings constructor returns; the bot is then new,
    with the index that could be opened or none.  The constructor logs
    that the vector store was loaded also when it could not be opened,
    and never logs that it was not. *)
Theorem new_bot_spec s llm_provider w :
  let r := new_bot s llm_provider w in
  (is_Some r.1 ↔
   ((llm_provider = "openai" ∧ openai_ok w = true) ∨
    (llm_provider = "anthropic" ∧ anthropic_ok w = true)) ∧
   embeddings_ok w = true) ∧
  (∀ b, r.1 = Some b →
     b = init s (chroma w) ∧ InfoVectorStoreLoaded ∈ r.2) ∧
  WarnVectorStoreNotLoaded ∉ r.2.
Proof.
  intros r. subst r.
  unfold new_bot, _initialize_llm, _initialize_embeddings, _load_vector_store.
  split; [|split].
  - repeat case_bool_decide; subst;
      destruct (openai_ok w), (anthropic_ok w), (embeddings_ok w),
        (chroma w); simpl; split;
      try (intros [? ?]; done); try (by eauto);
      intros [[[? ?]|[? ?]] ?]; done.
  - intros b.
    repeat case_bool_decide; subst;
      destruct (openai_ok w), (anthropic_ok w), (embeddings_ok w),
        (chroma w); simpl; try done; intros [= <-]; (split; [done|]);
      set_solver.
  - repeat case_bool_decide; subst;
      destruct (openai_ok w), (anthropic_ok w), (embeddings_ok w),
        (chroma w); simpl; set_solver.
Qed.

(** X25: [get_bot] constructs at most one bot: once a call has returned a
    bot, every later call returns that bot without constructing or
    logging anything, whatever the settings and the outside world are
    then; and when the construction raises, nothing is kept, so the next
    call constructs again. *)
Theorem get_bot_constructs_once s llm_provider w :
  let r := get_bot None s llm_provider w in
  (∀ b, r.1.1 = Some b →
     r.1.2 = Some b ∧ b = init s (chroma w) ∧
     ∀ s' llm_provider' w',
       get_bot r.1.2 s' llm_provider' w' = (Some b, Some b, [])) ∧
  (r.1.1 = None →
     r.1.2 = None ∧
     ∀ s' llm_provider' w',
       get_bot r.1.2 s' llm_provider' w' = get_bot None s' llm_provider' w').
Proof.
  intros r. subst r. unfold get_bot.
  pose proof (new_bot_init s llm_provider w) as Hinit.
  destruct (new_bot s llm_provider w) as [[b0|] lg]; cbn [fst snd] in *.
  - split; [|done]. intros b [= <-]. split; [done|].
    split; [by apply Hinit|]. done.
  - split; [done|]. intros _. split; done.
Qed.

End ChatbotExtras.

(** * Further properties of the knowledge-base builder *)

Module KnowledgeBaseExtras.
Import KnowledgeBase KnowledgeBaseProofs.

#[local] Set Warnings "-clear-no-such-hyp".

(** *** Extensions and the case of letters *)

Lemma lower_ascii_dot c :
  bool_decide (lower_ascii c = "."%char) = bool_decide (c = "."%char).
Proof. by destruct c as [[] [] [] [] [] [] [] []]. Qed.

Lemma lower_ascii_idem c : lower_ascii (lower_ascii c) = lower_ascii c.
Proof. by destruct c as [[] [] [] [] [] [] [] []]. Qed.

Lemma lower_idem s : lower (lower s) = lower s.
Proof.
  induction s as [|c s IH]; [done|]. simpl. by rewrite lower_ascii_idem, IH.
Qed.

Lemma length_lower s : String.length (lower s) = String.length s.
Proof. induction s as [|c s IH]; [done|]. simpl. by rewrite IH. Qed.

Lemma rfind_lower s : rfind "."%char (lower s) = rfind "."%char s.
Proof.
  induction s as [|c s IH]; [done|]. simpl. by rewrite IH, lower_ascii_dot.
Qed.

Lemma substring_lower s : ∀ i k,
  substring i k (lower s) = lower (substring i k s).
Proof.
  induction s as [|c s IH]; intros i k.
  - by destruct i, k.
  - destruct i as [|i]; simpl.
    + destruct k as [|k]; [done|]. simpl. by rewrite IH.
    + apply IH.
Qed.

Lemma suffix_lower n : suffix (lower n) = lower (suffix n).
Proof.
  unfold suffix. rewrite rfind_lower, length_lower.
  destruct (rfind "."%char n) as [i|]; [|done].
  case_match; [apply substring_lower|done].
Qed.

(** X19: the extension is compared without regard to the case of ASCII
    letters: two files whose names differ only in case are both handed
    to the same loader or both skipped, and the file type recorded is
    the lower-case extension. *)
Theorem extension_case_is_ignored p q :
  lower (name p) = lower (name q) →
  lower (suffix (name p)) = lower (suffix (name q)) ∧
  loaders (lower (suffix (name p))) = loaders (lower (suffix (name q))) ∧
  (supported p ↔ supported q).
Proof.
  intros H.
  assert (Heq : lower (suffix (name p)) = lower (suffix (name q))).
  { by rewrite <- !suffix_lower, H. }
  unfold supported. by rewrite Heq.
Qed.

Lemma extension_case_is_ignored_witness :
  let p := ["kb"; "Returns.TXT"] in
  let q := ["archive"; "returns.txt"] in
  lower (name p) = lower (name q) ∧
  lower (suffix (name p)) = lower (suffix (name q)) ∧
  loaders (lower (suffix (name p))) = loaders (lower (suffix (name q))) ∧
  (supported p ↔ supported q).
Proof.
  intros p q. split; [reflexivity|].
  apply (extension_case_is_ignored p q). reflexivity.
Defined.

(** *** Metadata *)

Lemma dict_get_set md key value : dict_get (dict_set md key value) key = Some value.
Proof.
  induction md as [|[k v] md IH]; simpl.
  - by rewrite bool_decide_eq_true_2.
  - case_bool_decide as Hk; simpl.
    + by rewrite bool_decide_eq_true_2.
    + by rewrite bool_decide_eq_false_2.
Qed.

Lemma dict_get_set_ne md key value key' :
  key ≠ key' → dict_get (dict_set md key value) key' = dict_get md key'.
Proof.
  intros Hne. induction md as [|[k v] md IH]; simpl.
  - by rewrite bool_decide_eq_false_2.
  - case_bool_decide as Hk; simpl.
    + subst k. by rewrite !bool_decide_eq_false_2.
    + case_bool_decide; [done|apply IH].
Qed.

Section Libraries.

Variable load : LoaderClass → string → string → option (list Document).
Variable split_text : nat → nat → string → list string.

Lemma load_file_docs p data d :
  d ∈ (load_file load p data).1 →
  ∃ cls docs d0,
    loaders (lower (suffix (name p))) = Some cls ∧
    load cls (str p) data = Some docs ∧ d0 ∈ docs ∧
    d = add_metadata p (lower (suffix (name p))) d0.
Proof.
  unfold load_file.
  destruct (loaders _) as [cls|]; simpl; [|by intros ?%elem_of_nil].
  destruct (load cls (str p) data) as [docs|] eqn:E; simpl;
    [|by intros ?%elem_of_nil].
  intros H. apply list_elem_of_fmap in H as (d0 & -> & Hd0).
  by exists cls, docs, d0.
Qed.

(** X20: every document that [load_documents] returns comes from a file
    below the directory whose extension is one of the four, and carries
    the path of that file under "source" and its lower-case extension
    under "file_type", whatever the loader had put there; the text and
    the other metadata are the loader's. *)
Theorem loaded_documents_are_stamped fs dir d :
  d ∈ (load_documents load fs dir).1 →
  ∃ p data cls docs d0,
    (p, File data) ∈ fs ∧ is_below dir p = true ∧
    loaders (lower (suffix (name p))) = Some cls ∧
    lower (suffix (name p)) ∈ supported_extensions ∧
    load cls (str p) data = Some docs ∧ d0 ∈ docs ∧
    page_content d = page_content d0 ∧
    dict_get (metadata d) "source" = Some (str p) ∧
    dict_get (metadata d) "file_type" = Some (lower (suffix (name p))) ∧
    ∀ key, key ≠ "source" → key ≠ "file_type" →
           dict_get (metadata d) key = dict_get (metadata d0) key.
Proof.
  intros Hd.
  destruct (path_exists fs dir) eqn:Hex.
  2: { unfold load_documents in Hd. rewrite Hex in Hd.
       by apply elem_of_nil in Hd. }
  apply (load_documents_docs load _ _ _ Hex) in Hd
    as (p & data & Hin & Hb & Hd).
  apply load_file_docs in Hd as (cls & docs & d0 & Hcls & Hl & Hd0 & ->).
  exists p, data, cls, docs, d0. repeat split; try done.
  - apply loaders_supported. eauto.
  - simpl. rewrite dict_get_set_ne by done. apply dict_get_set.
  - simpl. apply dict_get_set.
  - intros key H1 H2. simpl. by rewrite !dict_get_set_ne.
Qed.

End Libraries.

Lemma loaded_documents_are_stamped_witness :
  let fs := [(["kb"], Directory); (["kb"; "Hours.TXT"], File "9 to 5")] in
  let d := {| page_content := "9 to 5";
              metadata := [("source", "kb/Hours.TXT"); ("file_type", ".txt")] |} in
  d ∈ (load_documents text_only_load fs ["kb"]).1 ∧
  ∃ p data cls docs d0,
    (p, File data) ∈ fs ∧ is_below ["kb"] p = true ∧
    loaders (lower (suffix (name p))) = Some cls ∧
    lower (suffix (name p)) ∈ supported_extensions ∧
    text_only_load cls (str p) data = Some docs ∧ d0 ∈ docs ∧
    page_content d = page_content d0 ∧
    dict_get (metadata d) "source" = Some (str p) ∧
    dict_get (metadata d) "file_type" = Some (lower (suffix (name p))) ∧
    ∀ key, key ≠ "source" → key ≠ "file_type" →
           dict_get (metadata d) key = dict_get (metadata d0) key.
Proof.
  intros fs d.
  assert (H : d ∈ (load_documents text_only_load fs ["kb"]).1).
  { vm_compute. by left. }
  split; [exact H|].
  exact (loaded_documents_are_stamped text_only_load fs ["kb"] d H).
Defined.

Section Building.

Variable load : LoaderClass → string → string → option (list Document).
Variable split_text : nat → nat → string → list string.

(** *** What lies outside the directory *)

(** X21: [load_documents] reads the files below the directory and
    nothing else: an entry that is not below it, or that is a directory,
    changes neither the documents nor the log. *)
Theorem load_documents_ignores_other_entries fs1 fs2 e dir :
  e.1 ≠ dir →
  is_below dir e.1 = false ∨ e.2 = Directory →
  load_documents load (fs1 ++ e :: fs2) dir =
  load_documents load (fs1 ++ fs2) dir.
Proof.
  intros Hne Hout. destruct e as [p n]. simpl in *. unfold load_documents.
  rewrite (path_exists_remove _ _ _ _ _ Hne).
  destruct (path_exists (fs1 ++ fs2) dir); simpl; [|done].
  rewrite !rglob_app, rglob_cons. simpl.
  destruct (is_below dir p) eqn:Hb; [|done].
  destruct Hout as [Hf|Hd]; [done|]. subst n.
  rewrite !(load_entries_app load). simpl.
  by destruct (load_entries load (rglob fs2 dir)).
Qed.

(** *** Building from a directory that has documents *)

Lemma mkdirs_adds_directories rest : ∀ fs above,
  ∃ l, mkdirs fs above rest = fs ++ l ∧ Forall (λ e, e.2 = Directory) l.
Proof.
  induction rest as [|x rest IH]; intros fs above; simpl.
  - exists []. by rewrite app_nil_r.
  - destruct (path_exists fs (above ++ [x])).
    + apply IH.
    + destruct (IH (fs ++ [(above ++ [x], Directory)]) (above ++ [x]))
        as (l & -> & Hl).
      exists ((above ++ [x], Directory) :: l). split.
      * by rewrite <- app_assoc.
      * by constructor.
Qed.

Lemma load_entries_log_records entries r :
  r ∈ (load_entries load entries).2 →
  (∃ p, r = InfoLoading p) ∨ (∃ n s, r = InfoLoaded n s) ∨
  (∃ p, r = ErrorLoading p).
Proof.
  induction entries as [|[p [|data]] entries IH]; simpl.
  - by intros ?%elem_of_nil.
  - done.
  - unfold load_file.
    destruct (load_entries load entries) as [docs' lg'].
    destruct (loaders _) as [cls|]; simpl; [|done].
    destruct (load cls (str p) data); simpl;
      rewrite !elem_of_cons; intros [->|[->|H]]; eauto.
Qed.

Lemma load_documents_log_records fs dir r :
  r ∈ (load_documents load fs dir).2 →
  r ≠ WarnNoDocuments ∧ ∀ fn, r ≠ InfoCreatedSample fn.
Proof.
  unfold load_documents. destruct (path_exists fs dir); simpl.
  - intros H. apply load_entries_log_records in H
      as [[p ->]|[(n & s & ->)|[p ->]]]; done.
  - intros H. apply list_elem_of_singleton in H as ->. done.
Qed.

(** X22: when the documents directory yields at least one document, the
    build writes no sample file and does not warn: the file system
    afterwards is the one before with the two directories made, the
    files in it are those that were there, with their contents, and the
    chunks handed to the index are the chunks of the documents loaded. *)
Theorem build_leaves_documents_alone b index_ok fs documents_dir output_dir :
  let docs_dir :=
    from_option id (knowledge_base_path (settings b)) documents_dir in
  let out_dir :=
    from_option id (vector_store_path (settings b)) output_dir in
  let fs1 := mkdir (mkdir fs docs_dir) out_dir in
  (load_documents load fs1 docs_dir).1 ≠ [] →
  let r := build_vector_store load split_text b index_ok fs
             documents_dir output_dir in
  fs_after r = fs1 ∧
  (∀ p data, (p, File data) ∈ fs_after r ↔ (p, File data) ∈ fs) ∧
  (splits r =
     split_documents split_text (text_splitter b)
       (load_documents load fs1 docs_dir).1) ∧
  (WarnNoDocuments ∉ log r) ∧
  (∀ fn, InfoCreatedSample fn ∉ log r).
Proof.
  intros docs_dir out_dir fs1 Hdocs r.
  assert (Hfiles : ∀ p data, (p, File data) ∈ fs1 ↔ (p, File data) ∈ fs).
  { intros p data. subst fs1. unfold mkdir.
    destruct (mkdirs_adds_directories docs_dir fs []) as (l1 & -> & Hl1).
    destruct (mkdirs_adds_directories out_dir (fs ++ l1) []) as (l2 & -> & Hl2).
    rewrite !elem_of_app. rewrite Forall_forall in Hl1, Hl2.
    split; [|tauto].
    intros [[H|H]|H]; [done| |].
    - by specialize (Hl1 _ H).
    - by specialize (Hl2 _ H). }
  subst r. unfold build_vector_store. fold docs_dir out_dir. fold fs1.
  pose proof (load_documents_log_records fs1 docs_dir) as Hlog.
  destruct (load_documents load fs1 docs_dir) as [[|d docs] lg1] eqn:E;
    [done|]. simpl in Hlog.
  assert (Hno : ∀ r0,
            (r0 = WarnNoDocuments ∨ ∃ fn, r0 = InfoCreatedSample fn) →
            r0 ∉ InfoLoadingFrom docs_dir :: lg1 ++ [] ++
              [InfoLoadedTotal (List.length (d :: docs)); InfoSplitting;
               InfoCreatedChunks
                 (List.length
                    (split_documents split_text (text_splitter b) (d :: docs)));
               InfoCreatingStore]).
  { intros r0 Hr0 Hin.
    repeat (rewrite elem_of_cons in Hin || rewrite elem_of_app in Hin
            || rewrite elem_of_nil in Hin).
    destruct Hr0 as [->|[fn ->]]; destruct_or!; try done;
      match goal with H : _ ∈ lg1 |- _ => destruct (Hlog _ H) as [H1 H2] end;
      try done; by apply (H2 fn). }
  destruct index_ok; cbn [fs_after splits log]; (split; [done|]);
    (split; [done|]); (split; [done|]); split.
  - rewrite elem_of_app. intros [H|H%list_elem_of_singleton]; [|done].
    revert H. apply Hno. by left.
  - intros fn. rewrite elem_of_app.
    intros [H|H%list_elem_of_singleton]; [|done].
    revert H. apply Hno. right. by exists fn.
  - apply Hno. by left.
  - intros fn. apply Hno. right. by exists fn.
Qed.

End Building.

Lemma load_documents_ignores_other_entries_witness :
  let fs1 := [(["kb"], Directory); (["kb"; "hours.txt"], File "9 to 5")] in
  let fs2 := [(["kb"; "faq.txt"], File "Q and A")] in
  let e := (["logs"; "app.txt"], File "started") in
  (e.1 ≠ ["kb"] ∧ is_below ["kb"] e.1 = false) ∧
  load_documents text_only_load (fs1 ++ e :: fs2) ["kb"] =
  load_documents text_only_load (fs1 ++ fs2) ["kb"].
Proof.
  intros fs1 fs2 e. split; [done|].
  apply (load_documents_ignores_other_entries text_only_load fs1 fs2 e ["kb"]).
  - done.
  - by left.
Defined.

Lemma build_leaves_documents_alone_witness :
  let b := init default_settings in
  let fs := [(["data"], Directory); (["data"; "knowledge_base"], Directory);
             (["data"; "knowledge_base"; "hours.txt"], File "9 to 5")] in
  let fs1 := mkdir (mkdir fs ["data"; "knowledge_base"])
               ["data"; "vectorstore"] in
  let r := build_vector_store text_only_load unsplit b true fs None None in
  (load_documents text_only_load fs1 ["data"; "knowledge_base"]).1 ≠ [] ∧
  fs_after r = fs1 ∧
  (∀ p data, (p, File data) ∈ fs_after r ↔ (p, File data) ∈ fs) ∧
  (splits r =
     split_documents unsplit (text_splitter b)
       (load_documents text_only_load fs1 ["data"; "knowledge_base"]).1) ∧
  (WarnNoDocuments ∉ log r) ∧
  (∀ fn, InfoCreatedSample fn ∉ log r).
Proof.
  intros b fs fs1 r.
  assert (H : (load_documents text_only_load fs1
                 ["data"; "knowledge_base"]).1 ≠ []) by done.
  split; [exact H|].
  exact (build_leaves_documents_alone text_only_load unsplit b true fs
           None None H).
Defined.

(** *** Seeding *)

Lemma elem_of_write_text_other fs p data e :
  e ∈ fs → e.1 ≠ p → e ∈ write_text fs p data.
Proof.
  intros Hin Hne. unfold write_text. destruct (path_exists fs p).
  - apply list_elem_of_fmap. exists e. split; [|done].
    unfold is_path. by rewrite bool_decide_eq_false_2.
  - apply elem_of_app. by left.
Qed.

Lemma elem_of_write_samples_other items : ∀ fs dir e,
  e ∈ fs →
  (∀ fn c, (fn, c) ∈ items → e.1 ≠ dir ++ [fn]) →
  e ∈ (write_samples fs dir items).1.
Proof.
  induction items as [|[fn c] items IH]; intros fs dir e Hin Hne; [done|].
  rewrite write_samples_cons. apply IH.
  - apply elem_of_write_text_other; [done|]. apply (Hne fn c). by left.
  - intros fn' c' H. apply (Hne fn' c'). by right.
Qed.

(** X23: writing the sample documents touches the four sample paths
    only.  Every other entry stays; every entry afterwards was there
    before or is a sample file; a file that was at a sample path has the
    sample's stripped text afterwards, whatever it held; and writing the
    samples again changes nothing. *)
Theorem seeding_touches_only_the_samples fs dir :
  let fs' := (_create_sample_documents fs dir).1 in
  (∀ e, e ∈ fs →
        (∀ fn c, (fn, c) ∈ sample_content → e.1 ≠ dir ++ [fn]) → e ∈ fs') ∧
  (∀ e, e ∈ fs' →
        e ∈ fs ∨
        ∃ fn c, (fn, c) ∈ sample_content ∧ e = (dir ++ [fn], File (strip c))) ∧
  (∀ fn c, (fn, c) ∈ sample_content →
     (dir ++ [fn], File (strip c)) ∈ fs' ∧
     ∀ data, (dir ++ [fn], File data) ∈ fs' → data = strip c) ∧
  (_create_sample_documents fs' dir).1 = fs'.
Proof.
  intros fs'. subst fs'. unfold _create_sample_documents.
  split; [|split; [|split]].
  - intros e Hin Hne. by apply elem_of_write_samples_other.
  - intros e. apply elem_of_write_samples.
  - intros fn c Hin.
    pose proof (holds_write_samples sample_content fs dir fn c
                  sample_names_NoDup Hin) as Hh.
    split; [by apply holds_elem_of|].
    intros data Hd. destruct Hh as [_ Hall].
    by specialize (Hall _ Hd) as [= ->].
  - apply write_samples_id. intros fn c Hin.
    by apply holds_write_samples; [apply sample_names_NoDup|].
Qed.

Section Updating.

Variable load : LoaderClass → string → string → option (list Document).
Variable split_text : nat → nat → string → list string.


End Updating.

End KnowledgeBaseExtras.

(** * Properties of the HTTP layer *)

Module ApiProofs.
Import Api.

#[local] Set Warnings "-clear-no-such-hyp".

Local Open Scope Z_scope.

(** *** The window of the rate limit *)

Lemma in_window_iff now ts :
  in_window now ts = true ↔
  ∃ days r, 0 ≤ r < 60000000 ∧ now - ts = days * 86400000000 + r.
Proof.
  unfold in_window, seconds. rewrite Z.ltb_lt. split.
  - intros H.
    exists (((now - ts) `div` 1000000) `div` 86400),
           ((((now - ts) `div` 1000000) `mod` 86400) * 1000000
            + (now - ts) `mod` 1000000).
    pose proof (Z.div_mod (now - ts) 1000000 ltac:(lia)).
    pose proof (Z.div_mod ((now - ts) `div` 1000000) 86400 ltac:(lia)).
    pose proof (Z.mod_pos_bound (now - ts) 1000000 ltac:(lia)).
    pose proof (Z.mod_pos_bound ((now - ts) `div` 1000000) 86400 ltac:(lia)).
    lia.
  - intros (days & r & Hr & ->).
    replace (days * 86400000000 + r)
      with (r + (days * 86400) * 1000000) by lia.
    rewrite Z.div_add by lia.
    rewrite Z.add_comm, Z.mul_comm, Z.add_comm.
    replace (r `div` 1000000 + 86400 * days)
      with (r `div` 1000000 + days * 86400) by lia.
    rewrite Z.mod_add by lia.
    assert (0 ≤ r `div` 1000000 < 60).
    { split; [apply Z.div_pos; lia|apply Z.div_lt_upper_bound; lia]. }
    rewrite Z.mod_small; lia.
Qed.

Lemma filter_all {A} (f : A → bool) l :
  (∀ x, x ∈ l → f x = true) → List.filter f l = l.
Proof.
  induction l as [|x l IH]; intros H; [done|]. simpl.
  rewrite (H x) by (by left). f_equal. apply IH. intros y Hy. apply H. by right.
Qed.

Lemma filter_none {A} (f : A → bool) l :
  (∀ x, x ∈ l → f x = false) → List.filter f l = [].
Proof.
  induction l as [|x l IH]; intros H; [done|]. simpl.
  rewrite (H x) by (by left). apply IH. intros y Hy. apply H. by right.
Qed.

Lemma length_filter_le {A} (f : A → bool) l :
  (List.length (List.filter f l) ≤ List.length l)%nat.
Proof.
  induction l as [|x l IH]; [done|]. simpl. destruct (f x); simpl; lia.
Qed.

(** The rate limit switched on: the window of the client is pruned, and
    the request is refused when the pruned window is full, recorded
    otherwise. *)
Lemma check_rate_limit_enabled cfg counts ip now :
  rate_limit_enabled cfg = true →
  check_rate_limit cfg counts ip now =
  let window := List.filter (in_window now) (default [] (counts !! ip)) in
  if Z.of_nat (List.length window) >=? max_requests_per_minute cfg
  then (HTTPException 429 "Rate limit exceeded. Please try again later.",
        <[ip := window]> counts)
  else (Return (), <[ip := window ++ [now]]> counts).
Proof.
  intros He. unfold check_rate_limit. rewrite He. simpl.
  destruct (counts !! ip) as [w|] eqn:E; simpl.
  - rewrite E. simpl. by rewrite insert_insert_eq.
  - rewrite lookup_insert_eq. simpl. by rewrite !insert_insert_eq.
Qed.

Lemma check_rate_limit_disabled cfg counts ip now :
  rate_limit_enabled cfg = false →
  check_rate_limit cfg counts ip now = (Return (), counts).
Proof. intros He. unfold check_rate_limit. by rewrite He. Qed.

Lemma check_rate_limit_other cfg counts ip other now :
  other ≠ ip → (check_rate_limit cfg counts ip now).2 !! other = counts !! other.
Proof.
  intros Hne. destruct (rate_limit_enabled cfg) eqn:He.
  - rewrite (check_rate_limit_enabled _ _ _ _ He). cbn zeta.
    case_match; simpl; by rewrite lookup_insert_ne.
  - by rewrite (check_rate_limit_disabled _ _ _ _ He).
Qed.

Lemma check_rate_limit_bounded cfg counts ip now :
  (∀ i l, counts !! i = Some l →
          Z.of_nat (List.length l) ≤ Z.max 0 (max_requests_per_minute cfg)) →
  ∀ i l, (check_rate_limit cfg counts ip now).2 !! i = Some l →
         Z.of_nat (List.length l) ≤ Z.max 0 (max_requests_per_minute cfg).
Proof.
  intros Hb i l. destruct (decide (i = ip)) as [->|Hne].
  2: { rewrite check_rate_limit_other by done. apply Hb. }
  destruct (rate_limit_enabled cfg) eqn:He.
  2: { rewrite (check_rate_limit_disabled _ _ _ _ He). apply Hb. }
  rewrite (check_rate_limit_enabled _ _ _ _ He). cbn zeta.
  set (w := default [] (counts !! ip)).
  assert (Hw : Z.of_nat (List.length w) ≤ Z.max 0 (max_requests_per_minute cfg)).
  { subst w. destruct (counts !! ip) as [w|] eqn:E; simpl; [by eapply Hb|lia]. }
  pose proof (length_filter_le (in_window now) w) as Hf.
  destruct (Z.of_nat _ >=? _) eqn:Hge; simpl;
    rewrite lookup_insert_eq; intros [= <-].
  - lia.
  - rewrite length_app. simpl. rewrite Z.geb_leb in Hge.
    apply Z.leb_gt in Hge. lia.
Qed.

(** X9: however many requests arrive, from whatever clients and at
    whatever times, the window kept for a client never holds more
    timestamps than [max_requests_per_minute] (none when that setting is
    negative). *)
Theorem rate_window_is_bounded cfg requests ip l :
  check_each cfg ∅ requests !! ip = Some l →
  Z.of_nat (List.length l) ≤ Z.max 0 (max_requests_per_minute cfg).
Proof.
  unfold check_each. revert ip l.
  assert (H : ∀ counts,
    (∀ i l, counts !! i = Some l →
            Z.of_nat (List.length l) ≤ Z.max 0 (max_requests_per_minute cfg)) →
    ∀ i l,
      fold_left (λ c r, (check_rate_limit cfg c r.1 r.2).2) requests counts
        !! i = Some l →
      Z.of_nat (List.length l) ≤ Z.max 0 (max_requests_per_minute cfg)).
  { induction requests as [|[ip now] requests IH]; intros counts Hb; [done|].
    simpl. apply IH. by apply check_rate_limit_bounded. }
  apply H. intros i l. by rewrite lookup_empty.
Qed.

Lemma rate_window_is_bounded_witness :
  let cfg := {| rate_limit_enabled := true; max_requests_per_minute := 2;
                require_api_key := false; valid_api_keys := [] |} in
  let requests := [("10.0.0.1", 0); ("10.0.0.2", 500000); ("10.0.0.1", 1000000);
                   ("10.0.0.1", 2000000); ("10.0.0.1", 3000000)] in
  check_each cfg ∅ requests !! "10.0.0.1" = Some [0; 1000000] ∧
  Z.of_nat (List.length [0; 1000000]) ≤ Z.max 0 (max_requests_per_minute cfg).
Proof.
  intros cfg requests.
  assert (H : check_each cfg ∅ requests !! "10.0.0.1" = Some [0; 1000000])
    by reflexivity.
  split; [exact H|].
  exact (rate_window_is_bounded cfg requests "10.0.0.1" [0; 1000000] H).
Defined.

(** *** A burst of requests *)

Lemma check_all_cons cfg counts ip t times :
  (check_all cfg counts ip (t :: times)).1 =
  (if (check_rate_limit cfg counts ip t).1 is Return _ then true else false)
  :: (check_all cfg (check_rate_limit cfg counts ip t).2 ip times).1.
Proof.
  cbn [check_all]. destruct (check_rate_limit cfg counts ip t) as [r counts1].
  cbn [fst snd]. by destruct (check_all cfg counts1 ip times).
Qed.

Lemma check_all_burst cfg ip times : ∀ counts w,
  rate_limit_enabled cfg = true →
  default [] (counts !! ip) = w →
  (∀ ts t, ts ∈ w → t ∈ times → 0 ≤ t - ts < 60000000) →
  StronglySorted Z.le times →
  (∀ t t', t ∈ times → t' ∈ times → t' - t < 60000000) →
  (check_all cfg counts ip times).1 =
  replicate
    (List.length times `min`
       (Z.to_nat (max_requests_per_minute cfg) - List.length w))%nat true ++
  replicate
    (List.length times -
       (Z.to_nat (max_requests_per_minute cfg) - List.length w))%nat false.
Proof.
  induction times as [|t times IH]; intros counts w He Hw Hin Hs Hspread.
  - done.
  - rewrite check_all_cons, (check_rate_limit_enabled _ _ _ _ He). cbn zeta.
    rewrite Hw.
    assert (Hkeep : List.filter (in_window t) w = w).
    { apply filter_all. intros ts Hts. apply in_window_iff.
      exists 0, (t - ts). split; [|lia]. apply Hin; [done|by left]. }
    rewrite Hkeep.
    apply StronglySorted_inv in Hs as [Hs Hle].
    rewrite Forall_forall in Hle.
    destruct (Z.of_nat (List.length w) >=? max_requests_per_minute cfg)
      eqn:Hge; cbn [fst snd].
    + rewrite Z.geb_leb in Hge. apply Z.leb_le in Hge.
      rewrite (IH _ w He); [| |intros; apply Hin; [done|by right]|done|
                            intros; apply Hspread; by right].
      2: { by rewrite lookup_insert_eq. }
      replace (Z.to_nat (max_requests_per_minute cfg) - List.length w)%nat
        with 0%nat by lia.
      rewrite !Nat.min_0_r, !Nat.sub_0_r. done.
    + rewrite Z.geb_leb in Hge. apply Z.leb_gt in Hge.
      rewrite (IH _ (w ++ [t]) He); [| | |done|
                                     intros; apply Hspread; by right].
      2: { by rewrite lookup_insert_eq. }
      2: { intros ts t' Hts Ht'. apply elem_of_app in Hts as [Hts|Hts].
           - apply Hin; [done|by right].
           - apply list_elem_of_singleton in Hts as ->. split.
             + assert (t ≤ t') by (by apply Hle). lia.
             + apply Hspread; [by left|by right]. }
      rewrite length_app. simpl.
      destruct (Z.to_nat (max_requests_per_minute cfg) - List.length w)%nat
        as [|k] eqn:Ek; [lia|].
      replace (Z.to_nat (max_requests_per_minute cfg)
               - (List.length w + 1))%nat with k by lia.
      done.
Qed.

(** X10: with the rate limit on, when a client with no window sends
    requests at non-decreasing times that all lie within less than 60
    seconds, the first [max_requests_per_minute] of them are let through
    and every later one is refused. *)
Theorem burst_is_cut_at_the_limit cfg counts ip times :
  rate_limit_enabled cfg = true →
  counts !! ip = None →
  StronglySorted Z.le times →
  (∀ t t', t ∈ times → t' ∈ times → t' - t < 60000000) →
  (check_all cfg counts ip times).1 =
  replicate
    (List.length times `min` Z.to_nat (max_requests_per_minute cfg))%nat true ++
  replicate
    (List.length times - Z.to_nat (max_requests_per_minute cfg))%nat false.
Proof.
  intros He Hnone Hs Hspread.
  rewrite (check_all_burst cfg ip times counts [] He); try done.
  - simpl. by rewrite Nat.sub_0_r.
  - by rewrite Hnone.
  - intros ts t Hts. by apply elem_of_nil in Hts.
Qed.

Lemma burst_is_cut_at_the_limit_witness :
  let cfg := {| rate_limit_enabled := true; max_requests_per_minute := 3;
                require_api_key := false; valid_api_keys := [] |} in
  let times := [0; 10000000; 10000000; 30000000; 59000000] in
  (rate_limit_enabled cfg = true ∧ (∅ : gmap string (list Z)) !! "10.0.0.1" = None) ∧
  (check_all cfg ∅ "10.0.0.1" times).1 = [true; true; true; false; false].
Proof.
  intros cfg times. split; [done|].
  apply (burst_is_cut_at_the_limit cfg ∅ "10.0.0.1" times); [done|done| |].
  - repeat (constructor; [|repeat (constructor; [lia|]); constructor]).
    constructor.
  - intros t t' Ht Ht'. subst times.
    repeat (apply elem_of_cons in Ht as [->|Ht]);
      try (by apply elem_of_nil in Ht);
      repeat (apply elem_of_cons in Ht' as [->|Ht']);
      try (by apply elem_of_nil in Ht'); lia.
Defined.

(** *** Requests that are a day old *)

(** X11: the window is pruned on the seconds of the time difference
    within its day, so timestamps whose age is a whole number of days
    plus less than 60 seconds stay in it: a client whose window holds
    [max_requests_per_minute] such timestamps is refused, and its window
    is left as it was. *)
Theorem day_old_requests_still_count cfg counts ip now w :
  rate_limit_enabled cfg = true →
  counts !! ip = Some w →
  max_requests_per_minute cfg ≤ Z.of_nat (List.length w) →
  (∀ ts, ts ∈ w →
     ∃ days r, 0 ≤ r < 60000000 ∧ now - ts = days * 86400000000 + r) →
  check_rate_limit cfg counts ip now =
  (HTTPException 429 "Rate limit exceeded. Please try again later.", counts).
Proof.
  intros He Hw Hfull Hold.
  rewrite (check_rate_limit_enabled _ _ _ _ He). cbn zeta. rewrite Hw. simpl.
  rewrite filter_all by (intros ts Hts; by apply in_window_iff, Hold).
  rewrite insert_id by done.
  rewrite Z.geb_leb. by rewrite (proj2 (Z.leb_le _ _) Hfull).
Qed.

Lemma day_old_requests_still_count_witness :
  let cfg := {| rate_limit_enabled := true; max_requests_per_minute := 2;
                require_api_key := false; valid_api_keys := [] |} in
  let counts : gmap string (list Z) := {["10.0.0.1" := [0; 1000000]]} in
  let now := 86400000000 + 5000000 in
  counts !! "10.0.0.1" = Some [0; 1000000] ∧
  check_rate_limit cfg counts "10.0.0.1" now =
  (HTTPException 429 "Rate limit exceeded. Please try again later.", counts).
Proof.
  intros cfg counts now.
  assert (H : counts !! "10.0.0.1" = Some [0; 1000000]) by reflexivity.
  split; [exact H|].
  apply (day_old_requests_still_count cfg counts "10.0.0.1" now [0; 1000000]);
    [done|exact H|simpl; lia|].
  intros ts Hts. subst now.
  apply elem_of_cons in Hts as [->|Hts]; [exists 1, 5000000; lia|].
  apply elem_of_cons in Hts as [->|Hts]; [exists 1, 4000000; lia|].
  by apply elem_of_nil in Hts.
Defined.

(** X12: after at least 60 seconds and less than a day without a request,
    the timestamps of a client are all dropped: with a positive limit its
    next request is let through and its window holds that request
    alone. *)
Theorem window_empties_after_a_minute cfg counts ip now :
  rate_limit_enabled cfg = true →
  0 < max_requests_per_minute cfg →
  (∀ ts, ts ∈ default [] (counts !! ip) →
         60000000 ≤ now - ts < 86400000000) →
  check_rate_limit cfg counts ip now = (Return (), <[ip := [now]]> counts).
Proof.
  intros He Hpos Hold.
  rewrite (check_rate_limit_enabled _ _ _ _ He). cbn zeta.
  rewrite filter_none.
  - cbn [List.length app]. rewrite Z.geb_leb. change (Z.of_nat 0) with 0.
    by rewrite (proj2 (Z.leb_gt _ _) Hpos).
  - intros ts Hts. apply not_true_is_false. intros Hin.
    apply in_window_iff in Hin as (days & r & Hr & Heq).
    specialize (Hold ts Hts). lia.
Qed.

Lemma window_empties_after_a_minute_witness :
  let cfg := {| rate_limit_enabled := true; max_requests_per_minute := 2;
                require_api_key := false; valid_api_keys := [] |} in
  let counts : gmap string (list Z) := {["10.0.0.1" := [0; 1000000]]} in
  (rate_limit_enabled cfg = true ∧ 0 < max_requests_per_minute cfg) ∧
  check_rate_limit cfg counts "10.0.0.1" 61000000 =
  (Return (), <["10.0.0.1" := [61000000]]> counts).
Proof.
  intros cfg counts. split; [done|].
  apply (window_empties_after_a_minute cfg counts "10.0.0.1" 61000000);
    [done|done|].
  intros ts Hts. change (ts ∈ [0; 1000000]) in Hts.
  apply elem_of_cons in Hts as [->|Hts]; [lia|].
  apply elem_of_cons in Hts as [->|Hts]; [lia|].
  by apply elem_of_nil in Hts.
Defined.

(** *** Clients *)

(** X13: the rate limit of one client does not depend on the others: a
    request leaves the windows of all other clients as they were, and
    whether it is let through depends on the window of its own client
    only. *)
Theorem clients_are_limited_separately cfg counts counts' ip other now :
  other ≠ ip →
  counts !! ip = counts' !! ip →
  (check_rate_limit cfg counts ip now).2 !! other = counts !! other ∧
  (check_rate_limit cfg counts ip now).1 =
    (check_rate_limit cfg counts' ip now).1 ∧
  (check_rate_limit cfg counts ip now).2 !! ip =
    (check_rate_limit cfg counts' ip now).2 !! ip.
Proof.
  intros Hne Heq. split; [by apply check_rate_limit_other|].
  destruct (rate_limit_enabled cfg) eqn:He.
  - rewrite !(check_rate_limit_enabled _ _ _ _ He). cbn zeta. rewrite Heq.
    case_match; simpl; by rewrite !lookup_insert_eq.
  - by rewrite !(check_rate_limit_disabled _ _ _ _ He).
Qed.

Lemma clients_are_limited_separately_witness :
  let cfg := {| rate_limit_enabled := true; max_requests_per_minute := 1;
                require_api_key := false; valid_api_keys := [] |} in
  let counts : gmap string (list Z) := {["10.0.0.2" := [0]]} in
  let counts' : gmap string (list Z) := ∅ in
  ("10.0.0.2" ≠ "10.0.0.1" ∧ counts !! "10.0.0.1" = counts' !! "10.0.0.1") ∧
  (check_rate_limit cfg counts "10.0.0.1" 1000000).2 !! "10.0.0.2" =
    counts !! "10.0.0.2" ∧
  (check_rate_limit cfg counts "10.0.0.1" 1000000).1 =
    (check_rate_limit cfg counts' "10.0.0.1" 1000000).1 ∧
  (check_rate_limit cfg counts "10.0.0.1" 1000000).2 !! "10.0.0.1" =
    (check_rate_limit cfg counts' "10.0.0.1" 1000000).2 !! "10.0.0.1".
Proof.
  intros cfg counts counts'. split; [done|].
  by apply (clients_are_limited_separately cfg counts counts'
              "10.0.0.1" "10.0.0.2" 1000000).
Defined.

Lemma dom_check_rate_limit cfg counts ip now :
  rate_limit_enabled cfg = true →
  dom (check_rate_limit cfg counts ip now).2 = {[ip]} ∪ dom counts.
Proof.
  intros He. rewrite (check_rate_limit_enabled _ _ _ _ He). cbn zeta.
  case_match; simpl; apply dom_insert_L.
Qed.

Lemma dom_check_each cfg requests : ∀ counts,
  rate_limit_enabled cfg = true →
  dom (check_each cfg counts requests) =
  dom counts ∪ list_to_set (map fst requests).
Proof.
  unfold check_each.
  induction requests as [|[ip now] requests IH]; intros counts He; simpl.
  - set_solver.
  - rewrite IH by done. rewrite (dom_check_rate_limit _ _ _ _ He). set_solver.
Qed.

(** X14: [request_counts] keeps one entry for every client address that
    ever sent a request while the rate limit was on, refused requests
    included, and never drops an entry; with the rate limit off it stays
    empty. *)
Theorem client_entries_are_never_dropped cfg requests :
  dom (check_each cfg ∅ requests) =
  if rate_limit_enabled cfg then list_to_set (map fst requests) else ∅.
Proof.
  destruct (rate_limit_enabled cfg) eqn:He.
  - rewrite dom_check_each by done. rewrite dom_empty_L. set_solver.
  - unfold check_each.
    assert (H : ∀ counts : gmap string (list Z),
              fold_left (λ c r, (check_rate_limit cfg c r.1 r.2).2)
                requests counts = counts).
    { induction requests as [|[ip now] requests IH]; intros counts; [done|].
      simpl. by rewrite (check_rate_limit_disabled _ _ _ _ He), IH. }
    by rewrite H, dom_empty_L.
Qed.

(** *** The API key *)

(** X15: a request passes the key check exactly when keys are not
    required, or its header carries a non-empty key that is one of
    [valid_api_keys]; every other request gets 401, also one with an
    empty key when the empty string is listed as valid. *)
Theorem verify_api_key_spec cfg x_api_key :
  (verify_api_key cfg x_api_key = Return true ↔
   require_api_key cfg = false ∨
   ∃ key, x_api_key = Some key ∧ key ≠ "" ∧ key ∈ valid_api_keys cfg) ∧
  (verify_api_key cfg x_api_key = Return true ∨
   verify_api_key cfg x_api_key =
     HTTPException 401 "Invalid or missing API key").
Proof.
  unfold verify_api_key.
  destruct (require_api_key cfg); simpl.
  2: { split; [split; auto|auto]. }
  destruct x_api_key as [key|].
  - destruct (decide (key = "")) as [->|Hne].
    + rewrite bool_decide_eq_true_2 by done. simpl.
      split; [|auto]. split; [done|].
      intros [|(k & [= <-] & Hk & _)]; done.
    + rewrite (bool_decide_eq_false_2 (key = "")) by done. simpl.
      destruct (decide (key ∈ valid_api_keys cfg)) as [Hin|Hnin].
      * rewrite bool_decide_eq_true_2 by done. simpl.
        split; [|auto]. split; [|done]. intros _. right. eauto.
      * rewrite bool_decide_eq_false_2 by done. simpl.
        split; [|auto]. split; [done|].
        intros [|(k & [= <-] & _ & Hk)]; done.
  - split; [|auto]. split; [done|]. intros [|(k & [=] & _)]; done.
Qed.

(** *** The handlers *)

Lemma verify_api_key_cases cfg x_api_key :
  verify_api_key cfg x_api_key = Return true ∨
  verify_api_key cfg x_api_key = HTTPException 401 "Invalid or missing API key".
Proof.
  unfold verify_api_key. destruct (require_api_key cfg); simpl; [|auto].
  destruct x_api_key as [key|]; [|auto]. case_match; auto.
Qed.

Lemma check_rate_limit_cases cfg counts ip now :
  (check_rate_limit cfg counts ip now).1 = Return () ∨
  (check_rate_limit cfg counts ip now).1 =
    HTTPException 429 "Rate limit exceeded. Please try again later.".
Proof.
  destruct (rate_limit_enabled cfg) eqn:He.
  - rewrite (check_rate_limit_enabled _ _ _ _ He). cbn zeta. case_match; auto.
  - rewrite (check_rate_limit_disabled _ _ _ _ He). auto.
Qed.

(** X16: [DELETE /conversation/{session_id}] never answers 404: a request
    that passes the key check is answered with the success message for
    every session id, known to the bot or not; the rate-limit counts are
    untouched, and a following [GET] for the id shows no message. *)
Theorem delete_never_answers_404 cfg srv x_api_key sid :
  let r := clear_conversation cfg srv x_api_key sid in
  (∀ detail, r.1 ≠ HTTPException 404 detail) ∧
  (verify_api_key cfg x_api_key = Return true →
   r.1 = Return ("Conversation cleared successfully", sid) ∧
   request_counts r.2 = request_counts srv ∧
   get_conversation cfg r.2 x_api_key sid =
     Return {| history_session_id := sid; messages := [];
               message_count := 0 |}).
Proof.
  intros r. subst r. unfold clear_conversation, get_conversation.
  destruct (verify_api_key_cases cfg x_api_key) as [Hv|Hv]; rewrite Hv.
  - cbn -[Chatbot.get_conversation_history].
    split; [done|]. intros _. split; [done|]. split; [done|].
    pose proof (ChatbotProofs.clear_history (bot srv) sid sid) as Hh.
    rewrite bool_decide_eq_true_2 in Hh by done.
    unfold Chatbot.clear_conversation in Hh. cbn [snd] in Hh.
    cbn [bot]. by rewrite Hh.
  - simpl. split; [done|]. done.
Qed.

(** X17: [POST /chat] for a request that passes the rate limit and the
    key check is answered, never refused, whether the turn completes or
    not.  The answer names the session of the turn, and a following [GET]
    for that session shows the earlier history followed by the message
    and the returned text when the turn completed, and the earlier history
    alone, with the fallback message returned, when it did not. *)
Theorem chat_endpoint_answers cfg srv ip now x_api_key e uuid4 request :
  Chatbot.consistent (bot srv) →
  (check_rate_limit cfg (request_counts srv) ip now).1 = Return () →
  verify_api_key cfg x_api_key = Return true →
  let r := chat cfg srv ip now x_api_key e uuid4 request in
  let sid := session_id_or request uuid4 in
  let before := Chatbot.get_conversation_history (bot srv) sid in
  ∃ resp hist,
    r.1 = Return resp ∧
    response_session_id resp = sid ∧
    get_conversation cfg r.2 x_api_key sid = Return hist ∧
    history_session_id hist = sid ∧
    message_count hist = List.length (messages hist) ∧
    ((¬ Chatbot.failed (bot srv) e (message request) sid ∧
      messages hist =
        before ++ [(Chatbot.user, message request);
                   (Chatbot.assistant, response resp)]) ∨
     (Chatbot.failed (bot srv) e (message request) sid ∧
      messages hist = before ∧
      response resp = Chatbot._get_error_response (bot srv))).
Proof.
  intros Hc Hrate Hkey r sid before. subst r. unfold chat.
  destruct (check_rate_limit cfg (request_counts srv) ip now) as [rl counts].
  simpl in Hrate. subst rl. rewrite Hkey. cbn zeta. fold sid.
  set (t := Chatbot.chat (bot srv) e (message request) sid).
  eexists _, _. split; [reflexivity|]. split; [reflexivity|].
  unfold get_conversation. rewrite Hkey. cbn zeta.
  split; [reflexivity|]. split; [reflexivity|]. split; [reflexivity|].
  cbn [messages response bot fst snd].
  pose proof (ChatbotProofs.chat_history (bot srv) e (message request)
                sid sid Hc) as Hh.
  fold t in Hh. fold before in Hh. unfold Chatbot.failed.
  destruct ((Chatbot.chat_try (bot srv) e (message request) sid).1.1)
    as [[a src]|] eqn:E.
  - left. split; [done|].
    rewrite bool_decide_eq_true_2 in Hh by done. rewrite Hh.
    subst t. unfold Chatbot.chat.
    destruct (Chatbot.chat_try (bot srv) e (message request) sid)
      as [[[[a' s']|] b'] tr]; simpl in *; by simplify_eq.
  - right. split; [done|]. split; [done|].
    by destruct (ChatbotProofs.chat_failure_fallback_aux _ _ _ _ E).
Qed.

Lemma chat_endpoint_answers_witness :
  let cfg := {| rate_limit_enabled := true; max_requests_per_minute := 60;
                require_api_key := true; valid_api_keys := ["secret"] |} in
  let srv := {| bot := Chatbot.init default_settings None;
                request_counts := ∅ |} in
  let e := Chatbot.answering "We are open 9 to 5." in
  let request := {| message := "Hours?"; session_id := None;
                    user_id := None |} in
  let r := chat cfg srv "10.0.0.1" 0 (Some "secret") e "uuid-1" request in
  let sid := session_id_or request "uuid-1" in
  let before := Chatbot.get_conversation_history (bot srv) sid in
  ∃ resp hist,
    r.1 = Return resp ∧
    response_session_id resp = sid ∧
    get_conversation cfg r.2 (Some "secret") sid = Return hist ∧
    history_session_id hist = sid ∧
    message_count hist = List.length (messages hist) ∧
    ((¬ Chatbot.failed (bot srv) e (message request) sid ∧
      messages hist =
        before ++ [(Chatbot.user, message request);
                   (Chatbot.assistant, response resp)]) ∨
     (Chatbot.failed (bot srv) e (message request) sid ∧
      messages hist = before ∧
      response resp = Chatbot._get_error_response (bot srv))).
Proof.
  intros cfg srv e request.
  apply (chat_endpoint_answers cfg srv "10.0.0.1" 0 (Some "secret") e
           "uuid-1" request).
  - apply ChatbotProofs.consistent_init.
  - reflexivity.
  - reflexivity.
Defined.

(** X18: a request to [POST /chat] that is refused leaves the bot as it
    was, and is refused with 429 or 401.  The rate limit is looked at
    first: a client over its limit gets 429 whatever its key, and a
    request refused for its key has already been recorded in the window
    of its client. *)
Theorem refused_chat_requests cfg srv ip now x_api_key e uuid4 request :
  let r := chat cfg srv ip now x_api_key e uuid4 request in
  let checked := check_rate_limit cfg (request_counts srv) ip now in
  (∀ code detail, r.1 = HTTPException code detail →
     bot r.2 = bot srv ∧ request_counts r.2 = checked.2 ∧
     (code = 429%nat ∨ code = 401%nat)) ∧
  (∀ detail, checked.1 = HTTPException 429 detail →
     r.1 = HTTPException 429 detail) ∧
  (rate_limit_enabled cfg = true →
   checked.1 = Return () →
   verify_api_key cfg x_api_key ≠ Return true →
   r.1 = HTTPException 401 "Invalid or missing API key" ∧
   ∃ window, request_counts r.2 !! ip = Some (window ++ [now])).
Proof.
  intros r checked. subst r checked. unfold chat.
  pose proof (check_rate_limit_cases cfg (request_counts srv) ip now) as Hr.
  pose proof (verify_api_key_cases cfg x_api_key) as Hk.
  split; [|split].
  - intros code detail.
    destruct (check_rate_limit cfg (request_counts srv) ip now) as [rl counts].
    simpl in Hr. destruct Hr as [-> | ->].
    + destruct Hk as [-> | ->]; simpl; [done|].
      intros [= <- <-]. auto.
    + simpl. intros [= <- <-]. auto.
  - intros detail.
    destruct (check_rate_limit cfg (request_counts srv) ip now) as [rl counts].
    simpl. by intros ->.
  - intros He Hok Hbad.
    rewrite (check_rate_limit_enabled _ _ _ _ He) in *. cbn zeta in *.
    destruct Hk as [Hk|Hk]; [done|]. rewrite Hk.
    destruct (Z.of_nat _ >=? _); simpl in *; [done|].
    split; [done|]. eexists. apply lookup_insert_eq.
Qed.

End ApiProofs.
